(** * stm32pio GUI: the projects list model ([stm32pio/gui/list.py])

    A shallow embedding of [ProjectsList], the [QAbstractListModel] that owns
    the list of [ProjectListItem]s, removes duplicates on addition and saves
    the list of project paths to the application settings from a
    single-threaded worker pool. *)

From stdpp Require Import gmap strings list fin_maps pretty.


(** * Data model *)

(** The name a [ProjectListItem] shows until its [init_project] has finished. *)
Definition LOADING : string := "Loading...".

(** [stm32pio.lib.Stm32pio]: the only attribute the list model touches is
    [path], a [pathlib.Path], kept here in its [str()] form. *)
Module Stm32pio.
Record t := { path : string }.
End Stm32pio.

(** [stm32pio.gui.project.ProjectListItem] as the list model sees it. [ident]
    stands for the identity of the Python object ([is]); [project] is [None]
    until the wrapped [Stm32pio] has been constructed, and stays [None] when
    its construction failed. *)
Record ProjectListItem := {
  ident : nat;
  name : string;
  project : option Stm32pio.t;
  fromStartup : bool
}.

Global Instance Stm32pio_eq_dec : EqDecision Stm32pio.t.
Proof. solve_decision. Defined.

Global Instance ProjectListItem_eq_dec : EqDecision ProjectListItem.
Proof. solve_decision. Defined.

(** Levels of the records sent to a [logging.Logger]. *)
Inductive Level := DEBUG | INFO | WARNING | ERROR.

Global Instance Level_eq_dec : EqDecision Level.
Proof. solve_decision. Defined.

(** * The settings store *)

Module Settings.

(** Modelled from the spec: the durable store adapter
    ([stm32pio.gui.settings], a [QSettings]) is not part of the sources at
    hand. It is a key/value store whose keys are scoped by a stack of open
    groups and arrays; [remove] clears a key together with everything
    below it, and an array records its length under ["size"] when it is
    closed. Keys are kept as lists of segments instead of '/'-joined
    strings. *)
Inductive seg := Name (s : string) | Idx (i : nat).

(** Modelled from the spec: the values the store adapter keeps. *)
Inductive value := VInt (n : nat) | VStr (s : string).

Global Instance seg_eq_dec : EqDecision seg.
Proof. solve_decision. Defined.

Global Instance seg_countable : Countable seg.
Proof.
  refine (inj_countable'
            (λ x, match x with Name s => inl s | Idx i => inr i end)
            (λ y, match y with inl s => Name s | inr i => Idx i end) _).
  by intros [].
Defined.

Global Instance value_eq_dec : EqDecision value.
Proof. solve_decision. Defined.

(** Modelled from the spec: an open group of the store adapter. [g_index]
    is the index chosen by the last [setArrayIndex], [g_guess] the length
    guessed so far for an array opened for writing ([None] for a plain
    group). *)
Record group := {
  g_name : string;
  g_index : option nat;
  g_guess : option nat
}.

(** Modelled from the spec: the state of the store adapter, its contents and
    the groups that are open. *)
Record t := {
  store : gmap (list seg) value;
  stack : list group   (* innermost group last *)
}.

(** Modelled from the spec: the part of a key that an open group stands
    for. *)
Definition group_key (g : group) : list seg :=
  Name (g_name g) :: match g_index g with Some i => [Idx i] | None => [] end.

(** Modelled from the spec: the key prefix in force, made of the open
    groups, outermost first. *)
Definition prefix (gs : list group) : list seg := concat (group_key <$> gs).

(** Modelled from the spec: [beginGroup(name)] of the store adapter opens a
    scope for the keys. *)
Definition beginGroup (n : string) (s : t) : t :=
  {| store := store s;
     stack := stack s ++ [{| g_name := n; g_index := None; g_guess := None |}] |}.

(** Modelled from the spec: [endGroup()] of the store adapter closes the
    innermost scope. *)
Definition endGroup (s : t) : t :=
  {| store := store s; stack := removelast (stack s) |}.

(** Modelled from the spec: [remove(key)] of the store adapter clears
    whatever is at the key, in the current group: the key and every key
    below it, a former array included. *)
Definition remove (k : string) (s : t) : t :=
  {| store := filter (λ kv, ¬ (prefix (stack s) ++ [Name k]) `prefix_of` kv.1) (store s);
     stack := stack s |}.

(** Modelled from the spec: [setValue(key, value)] of the store adapter. *)
Definition setValue (k : string) (v : value) (s : t) : t :=
  {| store := <[prefix (stack s) ++ [Name k] := v]> (store s);
     stack := stack s |}.

(** Modelled from the spec: [beginWriteArray(name)] of the store adapter,
    with no size given: the length is guessed from the indices used, and a
    stale ["size"] is dropped. *)
Definition beginWriteArray (n : string) (s : t) : t :=
  {| store := delete (prefix (stack s) ++ [Name n; Name "size"]) (store s);
     stack := stack s ++ [{| g_name := n; g_index := None; g_guess := Some 0 |}] |}.

(** Modelled from the spec: [setArrayIndex(i)] of the store adapter; the
    keys set next belong to entry [i] of the array. *)
Definition setArrayIndex (i : nat) (s : t) : t :=
  match last (stack s) with
  | Some g =>
      {| store := store s;
         stack := removelast (stack s) ++
                  [{| g_name := g_name g;
                      g_index := Some i;
                      g_guess := (λ n, n `max` S i) <$> g_guess g |}] |}
  | None => s
  end.

(** Modelled from the spec: [endArray()] of the store adapter closes the
    array and records its length. *)
Definition endArray (s : t) : t :=
  match last (stack s) with
  | Some g =>
      let outer := removelast (stack s) in
      {| store := match g_guess g with
                  | Some n => <[prefix outer ++ [Name (g_name g); Name "size"] := VInt n]> (store s)
                  | None => store s
                  end;
         stack := outer |}
  | None => s
  end.

(** Modelled from the spec: the length recorded for the array at key [p]
    (counted from the root group), as [beginReadArray] returns it. *)
Definition array_size (m : gmap (list seg) value) (p : list seg) : nat :=
  match m !! (p ++ [Name "size"]) with
  | Some (VInt n) => n
  | _ => 0
  end.

(** Modelled from the spec: the entries [0 .. size-1] of the array at key
    [p], each read back under [k]. *)
Definition read_array (m : gmap (list seg) value) (p : list seg) (k : string)
  : list (option value) :=
  (λ i, m !! (p ++ [Idx i; Name k])) <$> seq 0 (array_size m p).

End Settings.

(** * Python objects reachable from the arguments *)

(** The keyword arguments of [addListItem] are a dict whose values may be
    lists and dicts shared with the caller, so these live in a heap and are
    named by their location. *)
Definition loc := nat.

Inductive pykey := KStr (s : string) | KInt (z : Z).

Inductive pyval :=
  | PyNone
  | PyBool (b : bool)
  | PyStr (s : string)
  | PySelf                (* the list model itself *)
  | PyObj (o : nat)       (* some other QObject *)
  | PyRef (l : loc).      (* a list or a dict *)

Global Instance pykey_eq_dec : EqDecision pykey.
Proof. solve_decision. Defined.

Global Instance pykey_countable : Countable pykey.
Proof.
  refine (inj_countable'
            (λ x, match x with KStr s => inl s | KInt z => inr z end)
            (λ y, match y with inl s => KStr s | inr z => KInt z end) _).
  by intros [].
Defined.

Global Instance pyval_eq_dec : EqDecision pyval.
Proof. solve_decision. Defined.

Inductive pyobj :=
  | PyList (xs : list pyval)
  | PyDict (d : gmap pykey pyval).

(** [len(v)]; [None] is the [TypeError] of an object that has no length. *)
Definition py_len (h : gmap loc pyobj) (v : pyval) : option nat :=
  match v with
  | PyStr s => Some (String.length s)
  | PyRef l =>
      match h !! l with
      | Some (PyList xs) => Some (length xs)
      | Some (PyDict d) => Some (size d)
      | None => None
      end
  | _ => None
  end.

(** The truth value of [v], as [not v] takes it. *)
Definition truthy (h : gmap loc pyobj) (v : pyval) : bool :=
  match v with
  | PyNone => false
  | PyBool b => b
  | PyStr s => negb (String.eqb s "")
  | PySelf | PyObj _ => true
  | PyRef l =>
      match py_len h v with
      | Some n => negb (n =? 0)
      | None => true
      end
  end.

(** * Effects *)

(** What the list model does to its collaborators, in the order it does it:
    records to [module_logger] and to a project's own logger, the
    [QAbstractListModel] row notifications, the [goToProject] signal, calls
    on a [ProjectListItem] (named by its identity), and tasks handed to the
    [QThreadPool]. *)
Inductive Event :=
  | Log (lvl : Level) (msg : string)
  | ItemLog (item : nat) (lvl : Level) (msg : string) (arg : pyval)
  | Run (item : nat) (action : string) (args : list pyval)
  | Construct (item : nat) (kwargs : gmap pykey pyval)
  | Connect (item : nat) (callback : nat)
  | BeginInsertRows (first last : nat)
  | EndInsertRows
  | BeginRemoveRows (first last : Z)
  | EndRemoveRows
  | GoToProject (indexToGo : Z)
  | PoolStartSave
  | DeleteLater (item : nat).

Global Instance Event_eq_dec : EqDecision Event.
Proof. solve_decision. Defined.

(** * Saving the list *)

(** What a call has come to: it returned, it raised, or (for the body that
    spins) it is still waiting when the observation ends. *)
Inductive outcome (A : Type) :=
  | Returned (a : A)
  | Raised (e : string)
  | Waiting.
Arguments Returned {A} a.
Arguments Raised {A} e.
Arguments Waiting {A}.

Global Instance outcome_eq_dec {A} `{EqDecision A} : EqDecision (outcome A).
Proof. solve_decision. Defined.

(** [all(project.name != 'Loading...' for project in self.projects)] *)
Definition all_loaded (ps : list ProjectListItem) : bool :=
  forallb (λ p, negb (String.eqb (name p) LOADING)) ps.

(** The busy wait. The worker shares [self.projects] with the thread that
    adds and removes projects and with the threads that finish the projects'
    initialisation, so every time the worker reads [self.projects] it finds
    the list as it is then: [view t] is what its read number [t] finds. Every
    pass of the loop is one read. The result is the pass at which the loop is
    left, if it is left within [fuel] passes. *)
Fixpoint wait_loaded (view : nat → list ProjectListItem) (fuel t : nat) : option nat :=
  match fuel with
  | O => None
  | S fuel' =>
      if all_loaded (view t) then Some t
      else wait_loaded view fuel' (S t)
  end.

(** [[project for project in self.projects if project.project is not None]] *)
Definition projects_to_save (ps : list ProjectListItem) : list ProjectListItem :=
  filter (λ p, is_Some (project p)) ps.

(** The loop over [enumerate(projects_to_save)]: how it ends and the
    settings it leaves; [project.project.path] on a [None] project raises
    [AttributeError], after [setArrayIndex]. *)
Fixpoint write_paths (idx : nat) (ps : list ProjectListItem) (s : Settings.t)
  : outcome unit * Settings.t :=
  match ps with
  | [] => (Returned tt, s)
  | p :: ps' =>
      let s := Settings.setArrayIndex idx s in
      match project p with
      | Some pr =>
          write_paths (S idx) ps'
            (Settings.setValue "path" (Settings.VStr (Stm32pio.path pr)) s)
      | None => (Raised "AttributeError", s)
      end
  end.

Definition saved_message (n : nat) : string :=
  pretty n +:+ " projects have been saved to Settings".

(** [_saveInSettings]: how the body has ended when the observation ends
    (after [fuel] passes of its wait at most), the settings as they are then
    and the records sent to [module_logger] so far. While the body waits it
    does nothing else. When the wait is left at pass [t], the list is read
    once more for [projects_to_save]: this is read number [t + 1]. *)
Definition _saveInSettings (view : nat → list ProjectListItem) (fuel : nat)
    (settings : Settings.t) : outcome unit * Settings.t * list Event :=
  match wait_loaded view fuel 0 with
  | None => (Waiting, settings, [])
  | Some t =>
      let to_save := projects_to_save (view (S t)) in
      let settings := Settings.beginGroup "app" settings in
      let settings := Settings.remove "projects" settings in
      let settings := Settings.beginWriteArray "projects" settings in
      match write_paths 0 to_save settings with
      | (Returned _, settings) =>
          let settings := Settings.endArray settings in
          let settings := Settings.endGroup settings in
          (Returned tt, settings, [Log INFO (saved_message (length to_save))])
      | (r, settings) => (r, settings, [])
      end
  end.

(** * The list model *)

Global Instance outcome_ret : MRet outcome := λ A, Returned.
Global Instance outcome_bind : MBind outcome := λ A B k m,
  match m with
  | Returned a => k a
  | Raised e => Raised e
  | Waiting => Waiting
  end.

(** The [ProjectsList] object and the part of the interpreter's state its
    methods work on: the list [self.projects], the heap of the objects
    reachable from keyword arguments, the effects so far (oldest first), and
    the number of [ProjectListItem]s constructed so far, which names the
    next one. *)
Record ProjectsList := {
  projects : list ProjectListItem;
  heap : gmap loc pyobj;
  events : list Event;
  constructed : nat
}.

Definition emit (e : Event) (self : ProjectsList) : ProjectsList :=
  {| projects := projects self;
     heap := heap self;
     events := events self ++ [e];
     constructed := constructed self |}.

(** [index in range(len(self.projects))] *)
Definition in_range (index : Z) (self : ProjectsList) : bool :=
  bool_decide (0 ≤ index < Z.of_nat (length (projects self)))%Z.

(** [get]: the item, or [None] (Python's implicit return). *)
Definition get (index : Z) (self : ProjectsList) : option ProjectListItem :=
  if in_range index self then projects self !! Z.to_nat index else None.

Definition rowCount (self : ProjectsList) : nat := length (projects self).

(** [saveInSettings]: one [Worker] around [_saveInSettings] is handed to the
    pool. *)
Definition saveInSettings (self : ProjectsList) : ProjectsList :=
  emit PoolStartSave self.

(** [os.stat] on a path, as the file system answers it: the file the path
    leads to, the [OSError] of a path that cannot be reached, or the
    [ValueError] of a string that is no path at all (it holds a NUL
    character). *)
Inductive stat_result :=
  | Stat (ino : nat)
  | StatOSError
  | StatValueError.

(** [pathlib.Path.samefile]: the path itself is [stat]ed, then the other
    one; [fs] is [os.stat]. *)
Definition samefile (fs : string → stat_result) (a b : string) : outcome bool :=
  match fs a with
  | Stat i =>
      match fs b with
      | Stat j => Returned (bool_decide (i = j))
      | StatOSError => Raised "OSError"
      | StatValueError => Raised "ValueError"
      end
  | StatOSError => Raised "OSError"
  | StatValueError => Raised "ValueError"
  end.

(** One step of the generator [each_project_is_duplicate_of]: the value of
    [(list_item.project is not None and list_item.project.path.samefile(...))
     or path == list_item.name] is yielded, [False] is yielded when
    evaluating it raised [OSError], and any other exception leaves the
    generator. *)
Definition is_duplicate_of (fs : string → stat_result) (list_item : ProjectListItem)
    (path : string) : outcome bool :=
  match project list_item with
  | Some pr =>
      match samefile fs (Stm32pio.path pr) path with
      | Returned true => Returned true
      | Returned false => Returned (bool_decide (path = name list_item))
      | Raised e => if String.eqb e "OSError" then Returned false else Raised e
      | Waiting => Waiting
      end
  | None => Returned (bool_decide (path = name list_item))
  end.

(** The generator, as the steps it would take one after the other; who
    consumes it takes no step after one that raised. *)
Definition each_project_is_duplicate_of (fs : string → stat_result)
    (self : ProjectsList) (path : string) : list (outcome bool) :=
  (λ list_item, is_duplicate_of fs list_item path) <$> projects self.

(** [next((idx for idx, is_duplicated in enumerate(answers) if is_duplicated), -1)]:
    the generator is run up to its first positive answer. *)
Fixpoint first_true (idx : Z) (answers : list (outcome bool)) : outcome Z :=
  match answers with
  | [] => Returned (-1)%Z
  | answer :: answers' =>
      match answer with
      | Returned is_duplicated =>
          if is_duplicated then Returned idx else first_true (idx + 1) answers'
      | Raised e => Raised e
      | Waiting => Waiting
      end
  end.

Definition duplicate_index (fs : string → stat_result) (self : ProjectsList)
    (path : string) : outcome Z :=
  first_true 0 (each_project_is_duplicate_of fs self path).

(** [dict(list_item_kwargs if list_item_kwargs is not None else {})]: a new
    dict with the same keys and the same values. The argument is [None] or
    refers to a dict; a reference to anything else is outside the annotated
    type and is answered by [TypeError]. *)
Definition copy_kwargs (h : gmap loc pyobj) (list_item_kwargs : option loc)
  : outcome (gmap pykey pyval) :=
  match list_item_kwargs with
  | None => Returned ∅
  | Some l =>
      match h !! l with
      | Some (PyDict d) => Returned d
      | _ => Raised "TypeError"
      end
  end.

(** ['parent' not in list_item_kwargs or not list_item_kwargs['parent']] *)
Definition set_parent (h : gmap loc pyobj) (kwargs : gmap pykey pyval)
  : gmap pykey pyval :=
  match kwargs !! KStr "parent" with
  | Some v => if truthy h v then kwargs else <[KStr "parent" := PySelf]> kwargs
  | None => <[KStr "parent" := PySelf]> kwargs
  end.

(** [list_item_kwargs.get('project_kwargs', {}).get('parameters', {})]
    together with its [len]. [None] stands for the [{}] of a default. *)
Definition proj_params (h : gmap loc pyobj) (kwargs : gmap pykey pyval)
  : outcome (option pyval * nat) :=
  match kwargs !! KStr "project_kwargs" with
  | None => Returned (None, 0)
  | Some (PyRef l) =>
      match h !! l with
      | Some (PyDict d) =>
          match d !! KStr "parameters" with
          | None => Returned (None, 0)
          | Some v =>
              match py_len h v with
              | Some n => Returned (Some v, n)
              | None => Raised "TypeError"
              end
          end
      | _ => Raised "AttributeError"
      end
  | Some _ => Raised "AttributeError"
  end.

(** The value handed to [run] and to the logger for [proj_params]. *)
Definition params_value (v : option pyval) : pyval := default PyNone v.

(** Modelled from the spec: the constructor of [ProjectListItem]
    ([stm32pio/gui/project.py]) is not part of the sources at hand. A new
    item shows the loading name, has no project yet, and remembers whether
    it comes from the settings read at startup. *)
Definition new_item (id : nat) (kwargs : gmap pykey pyval) : ProjectListItem :=
  {| ident := id;
     name := LOADING;
     project := None;
     fromStartup := match kwargs !! KStr "from_startup" with
                    | Some (PyBool b) => b
                    | _ => false
                    end |}.

(** The [else] branch's first statement: the path goes into
    [list_item_kwargs['project_args']], into a new list when the key is
    absent or its list empty, and otherwise in place, into whatever object
    the key refers to. *)
Definition insert_path (path : string) (h : gmap loc pyobj) (kwargs : gmap pykey pyval)
  : outcome (gmap loc pyobj * gmap pykey pyval) :=
  let fresh_list :=
    let l := fresh (dom h) in
    Returned (<[l := PyList [PyStr path]]> h, <[KStr "project_args" := PyRef l]> kwargs) in
  match kwargs !! KStr "project_args" with
  | None => fresh_list
  | Some v =>
      match py_len h v with
      | None => Raised "TypeError"
      | Some 0 => fresh_list
      | Some (S _) =>
          match v with
          | PyRef l =>
              match h !! l with
              | Some (PyList xs) => Returned (<[l := PyList (<[0 := PyStr path]> xs)]> h, kwargs)
              | Some (PyDict d) => Returned (<[l := PyDict (<[KInt 0 := PyStr path]> d)]> h, kwargs)
              | None => Raised "TypeError"
              end
          | _ => Raised "TypeError"   (* 'str' object does not support item assignment *)
          end
      end
  end.

(** [addListItem]: the item returned and the state left. *)
Definition addListItem (fs : string → stat_result) (path : string)
    (list_item_kwargs : option loc) (on_initialized : option nat)
    (self : ProjectsList) : outcome (ProjectListItem * ProjectsList) :=
  kwargs ← copy_kwargs (heap self) list_item_kwargs;
  let kwargs := set_parent (heap self) kwargs in
  duplicate_index ← duplicate_index fs self path;
  if bool_decide (duplicate_index > -1)%Z then
    let self := emit (Log WARNING ("This project is already in the list: " +:+ path)) self in
    '(params, len) ← proj_params (heap self) kwargs;
    match projects self !! Z.to_nat duplicate_index with
    | Some existing =>
        let self :=
          if negb (len =? 0) then
            emit (Run (ident existing) "save_config" [params_value params])
              (emit (ItemLog (ident existing) INFO "updating parameters from the CLI... "
                       (params_value params)) self)
          else self in
        let self := emit (GoToProject duplicate_index) self in
        Returned (existing, self)
    | None => Raised "IndexError"
    end
  else
    '(h, kwargs) ← insert_path path (heap self) kwargs;
    let project := new_item (constructed self) kwargs in
    let self := {| projects := projects self;
                   heap := h;
                   events := events self ++ [Construct (ident project) kwargs];
                   constructed := S (constructed self) |} in
    let self := match on_initialized with
                | Some callback => emit (Connect (ident project) callback) self
                | None => self
                end in
    let self := emit (BeginInsertRows (rowCount self) (rowCount self)) self in
    let self := {| projects := projects self ++ [project];
                   heap := heap self;
                   events := events self;
                   constructed := constructed self |} in
    let self := emit EndInsertRows self in
    Returned (project, self).

(** [QUrl] as far as [addProjectsByPaths] asks it. *)
Record QUrl := {
  isEmpty : bool;
  isLocalFile : bool;
  isRelative : bool;
  toLocalFile : string
}.

(** The body of the loop of [addProjectsByPaths] for one [path_str];
    [qurl] is the constructor [QUrl(path_str)]. *)
Definition add_path (qurl : string → QUrl) (fs : string → stat_result)
    (path_str : string) (self : ProjectsList) : outcome ProjectsList :=
  let path_qurl := qurl path_str in
  if isEmpty path_qurl then
    Returned (emit (Log WARNING ("Given path is empty: " +:+ path_str)) self)
  else if isLocalFile path_qurl then
    r ← addListItem fs (toLocalFile path_qurl) None None self;
    Returned r.2
  else if isRelative path_qurl then
    r ← addListItem fs path_str None None self;
    Returned r.2
  else
    Returned (emit (Log ERROR ("Incorrect path: " +:+ path_str)) self).

Fixpoint add_paths (qurl : string → QUrl) (fs : string → stat_result)
    (paths : list string) (self : ProjectsList) : outcome ProjectsList :=
  match paths with
  | [] => Returned self
  | path_str :: paths' =>
      self ← add_path qurl fs path_str self;
      add_paths qurl fs paths' self
  end.

Definition addProjectsByPaths (qurl : string → QUrl) (fs : string → stat_result)
    (paths : list string) (self : ProjectsList) : outcome ProjectsList :=
  if negb (length paths =? 0) then
    self ← add_paths qurl fs paths self;
    Returned (saveInSettings self)
  else
    Returned (emit (Log WARNING "No paths were given") self).

(** [removeProject] *)
Definition removeProject (index : Z) (self : ProjectsList) : ProjectsList :=
  if in_range index self then
    match projects self !! Z.to_nat index with
    | Some project_ =>
        let self := emit (BeginRemoveRows index index) self in
        let self := {| projects := delete (Z.to_nat index) (projects self);
                       heap := heap self;
                       events := events self;
                       constructed := constructed self |} in
        let self := emit EndRemoveRows self in
        let self :=
          if bool_decide (is_Some (project project_)) || fromStartup project_
          then saveInSettings self else self in
        emit (DeleteLater (ident project_)) self
    | None => self
    end
  else self.

(** The entries of an array of paths at key [p], from index [idx] on. *)
Fixpoint array_entries (p : list Settings.seg) (idx : nat) (paths : list string)
  : gmap (list Settings.seg) Settings.value :=
  match paths with
  | [] => ∅
  | x :: paths' =>
      <[p ++ [Settings.Idx idx; Settings.Name "path"] := Settings.VStr x]>
        (array_entries p (S idx) paths')
  end.

(** The paths of the projects that have been constructed, in list order. *)
Definition saved_paths (ps : list ProjectListItem) : list string :=
  omap (λ p, Stm32pio.path <$> project p) ps.

(** The key of the saved array, seen from the group in force. *)
Definition projects_key (gs : list Settings.group) : list Settings.seg :=
  Settings.prefix gs ++ [Settings.Name "app"; Settings.Name "projects"].

(** The store after a save of [paths] under key [p]: what was below [p] is
    gone, the entries and their number are there, the rest is as before. *)
Definition saved_store (p : list Settings.seg) (paths : list string)
    (m : gmap (list Settings.seg) Settings.value)
  : gmap (list Settings.seg) Settings.value :=
  <[p ++ [Settings.Name "size"] := Settings.VInt (length paths)]>
    (array_entries p 0 paths ∪ filter (λ kv, ¬ p `prefix_of` kv.1) m).

(** A run of [addListItem] calls, one per request (path, keyword arguments,
    callback), each on the state the one before left. Between two calls the
    initialisation threads go on: [settle k] is what they have made of each
    item of the list by the time call [k] has returned (its name and its
    project may have changed, the object is the same). Every call is listed
    with the item it returned and with whether it found no duplicate. *)
Fixpoint add_all (fs : string → stat_result)
    (settle : nat → ProjectListItem → ProjectListItem) (k : nat)
    (requests : list (string * option loc * option nat)) (self : ProjectsList)
  : outcome (list (ProjectListItem * bool) * ProjectsList) :=
  match requests with
  | [] => Returned ([], self)
  | (path, list_item_kwargs, on_initialized) :: requests' =>
      r ← addListItem fs path list_item_kwargs on_initialized self;
      rs ← add_all fs settle (S k) requests'
             {| projects := settle k <$> projects r.2;
                heap := heap r.2;
                events := events r.2;
                constructed := constructed r.2 |};
      Returned ((r.1, bool_decide (duplicate_index fs self path = Returned (-1)%Z)) :: rs.1,
                rs.2)
  end.

(** The items a run has constructed, in the order of their calls. *)
Definition created (rs : list (ProjectListItem * bool)) : list ProjectListItem :=
  fst <$> filter (λ r, r.2 = true) rs.


(** An entry of a batch is skipped: nothing but one record to the logger. *)
Definition skipped (lvl : Level) (msg : string) (self self' : ProjectsList) : Prop :=
  projects self' = projects self ∧
  heap self' = heap self ∧
  constructed self' = constructed self ∧
  events self' = events self ++ [Log lvl msg].

(** The first effect of every entry of a batch is a record to
    [module_logger] or the construction of an item, and an entry has no
    other effect of these kinds: they are the marks the entries leave. *)
Definition is_mark (e : Event) : bool :=
  match e with
  | Log _ _ | Construct _ _ => true
  | _ => false
  end.

Definition marks (evs : list Event) : list Event :=
  filter (λ e, is_mark e = true) evs.

(** The mark of an entry added under [path]: the warning of a duplicate, or
    the construction of an item whose ['project_args'] are, in the heap [h],
    the list of just the path. *)
Definition added_mark (h : gmap loc pyobj) (path : string) (e : Event) : Prop :=
  e = Log WARNING ("This project is already in the list: " +:+ path) ∨
  ∃ item kwargs l,
    e = Construct item kwargs ∧
    kwargs !! KStr "project_args" = Some (PyRef l) ∧
    h !! l = Some (PyList [PyStr path]).

(** The mark of the entry [path_str] of a batch. *)
Definition entry_mark (qurl : string → QUrl) (h : gmap loc pyobj) (path_str : string)
    (e : Event) : Prop :=
  if isEmpty (qurl path_str) then e = Log WARNING ("Given path is empty: " +:+ path_str)
  else if isLocalFile (qurl path_str) then added_mark h (toLocalFile (qurl path_str)) e
  else if isRelative (qurl path_str) then added_mark h path_str e
  else e = Log ERROR ("Incorrect path: " +:+ path_str).

(** An entry [path_str] of a batch is added under [path]: [addListItem] is
    called with the path and nothing else; when it returns, the batch goes
    on from the state it has left, and when it raises, which it can only
    with the [ValueError] of its duplicate check, the batch ends there. *)
Definition added (qurl : string → QUrl) (fs : string → stat_result) (path path_str : string)
    (paths : list string) (self : ProjectsList) : Prop :=
  match addListItem fs path None None self with
  | Returned (u, self1) =>
      add_path qurl fs path_str self = Returned self1 ∧
      add_paths qurl fs (path_str :: paths) self = add_paths qurl fs paths self1
  | Raised e =>
      e = "ValueError" ∧
      add_path qurl fs path_str self = Raised e ∧
      add_paths qurl fs (path_str :: paths) self = Raised e
  | Waiting => False
  end.

(** What the caller has put under ['project_args']: nothing, a list (at
    some location), or something that is not a list. *)
Inductive args_shape :=
  | ArgsAbsent
  | ArgsList (a : loc) (xs : list pyval)
  | ArgsOther.

Definition project_args_shape (h : gmap loc pyobj) (kwargs : gmap pykey pyval)
  : args_shape :=
  match kwargs !! KStr "project_args" with
  | None => ArgsAbsent
  | Some (PyRef a) =>
      match h !! a with
      | Some (PyList xs) => ArgsList a xs
      | _ => ArgsOther
      end
  | Some _ => ArgsOther
  end.

(** The rule for duplicates in the words of the specification: the project
    is constructed and its path and the candidate are the same file, or the
    project's name is the candidate path. *)
Definition duplicate_rule (fs : string → stat_result) (list_item : ProjectListItem)
    (path : string) : Prop :=
  (∃ pr, project list_item = Some pr ∧
         samefile fs (Stm32pio.path pr) path = Returned true) ∨
  name list_item = path.

(** * Sample data *)

(** Three projects: the first and the third constructed, the second one
    failed (its name is the path it was given). *)
Definition item_A : ProjectListItem :=
  {| ident := 0; name := "projA";
     project := Some {| Stm32pio.path := "/home/user/projA" |};
     fromStartup := true |}.

Definition item_B : ProjectListItem :=
  {| ident := 1; name := "/home/user/broken"; project := None; fromStartup := false |}.

Definition item_C : ProjectListItem :=
  {| ident := 2; name := "projC";
     project := Some {| Stm32pio.path := "/home/user/projC" |};
     fromStartup := false |}.





(** Settings that hold an older, longer list and an unrelated key. *)
Definition stale_settings : Settings.t :=
  {| Settings.store :=
       list_to_map
         [([Settings.Name "app"; Settings.Name "projects"; Settings.Name "size"],
           Settings.VInt 3);
          ([Settings.Name "app"; Settings.Name "projects"; Settings.Idx 0; Settings.Name "path"],
           Settings.VStr "/old/one");
          ([Settings.Name "app"; Settings.Name "projects"; Settings.Idx 1; Settings.Name "path"],
           Settings.VStr "/old/two");
          ([Settings.Name "app"; Settings.Name "projects"; Settings.Idx 2; Settings.Name "path"],
           Settings.VStr "/old/three");
          ([Settings.Name "app"; Settings.Name "verbose"], Settings.VInt 1)];
     Settings.stack := [] |}.


Fixpoint has_nul (s : string) : bool :=
  match s with
  | EmptyString => false
  | String c s' => Ascii.eqb c Ascii.zero || has_nul s'
  end.

(** A file system: the two project directories, a link to the first one,
    and nothing else. *)
Definition fs_sample (p : string) : stat_result :=
  if has_nul p then StatValueError
  else if String.eqb p "/home/user/projA" then Stat 11
  else if String.eqb p "/home/user/link_to_A" then Stat 11
  else if String.eqb p "/home/user/projC" then Stat 12
  else StatOSError.

Definition model_ABC : ProjectsList :=
  {| projects := [item_A; item_B; item_C]; heap := ∅; events := []; constructed := 3 |}.

(** Keyword arguments as the command line gives them: at location 0 a dict
    with [project_kwargs] (location 1), whose [parameters] (location 2) are
    [{'project': {'board': 'nucleo_f031k6'}}], and with [project_args], the
    list at location 4. *)
Definition heap_cli : gmap loc pyobj :=
  list_to_map
    [(0, PyDict (list_to_map [(KStr "project_kwargs", PyRef 1);
                              (KStr "project_args", PyRef 4)]));
     (1, PyDict (list_to_map [(KStr "parameters", PyRef 2)]));
     (2, PyDict (list_to_map [(KStr "project", PyRef 3)]));
     (3, PyDict (list_to_map [(KStr "board", PyStr "nucleo_f031k6")]));
     (4, PyList [PyStr "old/path"; PyBool true])].

Definition model_cli : ProjectsList :=
  {| projects := [item_A; item_B; item_C]; heap := heap_cli; events := [];
     constructed := 3 |}.

Definition model_empty : ProjectsList :=
  {| projects := []; heap := ∅; events := []; constructed := 0 |}.

(** The first item constructed finishes its initialisation after the second
    call: it becomes the project at ["/home/user/projA"]. *)
Definition settle_sample (k : nat) (u : ProjectListItem) : ProjectListItem :=
  if (0 <? k) && (ident u =? 0) then
    {| ident := 0; name := "projA";
       project := Some {| Stm32pio.path := "/home/user/projA" |};
       fromStartup := fromStartup u |}
  else u.

Definition requests_sample : list (string * option loc * option nat) :=
  [("/home/user/projA", None, None);
   ("/home/user/projC", None, Some 7);
   ("/home/user/link_to_A", None, None)].

(** [QUrl] on the strings used below: the empty string, a [file] URL, a URL
    of another scheme, and otherwise a string taken to have no scheme. *)
Definition qurl_sample (s : string) : QUrl :=
  if String.eqb s "" then
    {| isEmpty := true; isLocalFile := false; isRelative := true; toLocalFile := "" |}
  else if String.eqb s "file:///home/user/projA" then
    {| isEmpty := false; isLocalFile := true; isRelative := false;
       toLocalFile := "/home/user/projA" |}
  else if String.eqb s "http://example.com/proj" then
    {| isEmpty := false; isLocalFile := false; isRelative := false; toLocalFile := "" |}
  else
    {| isEmpty := false; isLocalFile := false; isRelative := true; toLocalFile := "" |}.

(** * More of the list model *)

(** [Qt.ItemDataRole] as far as [data] tells the roles apart. *)
Inductive ItemDataRole := DisplayRole | OtherRole (r : nat).

(** [l[i]] on a Python list: an index below zero counts from the end, and
    [None] is the [IndexError] of an index out of range. *)
Definition py_index {A} (l : list A) (i : Z) : option A :=
  if bool_decide (0 ≤ i < Z.of_nat (length l))%Z then l !! Z.to_nat i
  else if bool_decide (- Z.of_nat (length l) ≤ i < 0)%Z
       then l !! Z.to_nat (Z.of_nat (length l) + i)
       else None.

(** [data]: [row] is [index.row()] and [role] is [None] when it is not
    given. Another role than [Qt.DisplayRole] falls through to [None]. *)
Definition data (row : Z) (role : option ItemDataRole) (self : ProjectsList)
  : outcome (option ProjectListItem) :=
  match role with
  | Some (OtherRole _) => Returned None
  | _ =>
      match py_index (projects self) row with
      | Some item => Returned (Some item)
      | None => Raised "IndexError"
      end
  end.

(** The calls that change the list, and a run of them; a run stops at the
    first call that raises. *)
Inductive Op :=
  | OpAddListItem (path : string) (list_item_kwargs : option loc) (on_initialized : option nat)
  | OpAddProjectsByPaths (paths : list string)
  | OpRemoveProject (index : Z).

Definition run_op (qurl : string → QUrl) (fs : string → stat_result) (op : Op)
    (self : ProjectsList) : outcome ProjectsList :=
  match op with
  | OpAddListItem path list_item_kwargs on_initialized =>
      r ← addListItem fs path list_item_kwargs on_initialized self; Returned r.2
  | OpAddProjectsByPaths paths => addProjectsByPaths qurl fs paths self
  | OpRemoveProject index => Returned (removeProject index self)
  end.

Fixpoint run_ops (qurl : string → QUrl) (fs : string → stat_result) (ops : list Op)
    (self : ProjectsList) : outcome ProjectsList :=
  match ops with
  | [] => Returned self
  | op :: ops' => self ← run_op qurl fs op self; run_ops qurl fs ops' self
  end.

(** The number of rows a view holds after the notifications among [evs],
    when it held [rows] before: rows may be inserted anywhere up to the end
    and removed where there are rows, every [begin...] is closed by its
    [end...] before anything else happens, and [None] is a sequence of
    notifications that breaks these rules. *)
Fixpoint view_rows (rows : nat) (evs : list Event) : option nat :=
  match evs with
  | [] => Some rows
  | BeginInsertRows first last :: evs1 =>
      match evs1 with
      | EndInsertRows :: evs2 =>
          if bool_decide (first ≤ last ∧ first ≤ rows)
          then view_rows (rows + (last - first + 1)) evs2 else None
      | _ => None
      end
  | BeginRemoveRows first last :: evs1 =>
      match evs1 with
      | EndRemoveRows :: evs2 =>
          if bool_decide (0 ≤ first ≤ last ∧ last < Z.of_nat rows)%Z
          then view_rows (rows - Z.to_nat (last - first + 1)) evs2 else None
      | _ => None
      end
  | EndInsertRows :: _ | EndRemoveRows :: _ => None
  | _ :: evs1 => view_rows rows evs1
  end.

(** The effects of a call: what [self'] has recorded beyond [self]. *)
Definition new_events (self self' : ProjectsList) : list Event :=
  drop (length (events self)) (events self').

(** A view that has followed the notifications from [self] to [self'] holds
    as many rows as the list has. *)
Definition view_follows (self self' : ProjectsList) : Prop :=
  ∃ evs, events self' = events self ++ evs ∧
         view_rows (rowCount self) evs = Some (rowCount self').

(** How a state grows: the old list is the head of the new one, by at most
    [n] more items, as many as have been constructed. *)
Definition grows_by (n : nat) (self self' : ProjectsList) : Prop :=
  projects self `prefix_of` projects self' ∧
  rowCount self' ≤ rowCount self + n ∧
  constructed self' + rowCount self = constructed self + rowCount self'.

(** * The command line application ([stm32pio/app.py]) *)

Module App.

(** The arguments as [argparse] hands them over; an attribute a subcommand
    does not define is never read for it. *)
Record Namespace := {
  subcommand : option string;
  verbose : nat;
  project_path : string;
  board : string;
  editor : option string;
  with_build : bool;
  quiet : bool
}.

(** The calls [main] makes on [stm32pio.lib.Stm32pio]: the constructor (with
    the board of [parameters] and [save_on_destruction] when they are given),
    [config.get], the actions and the [state] property. *)
Inductive LibCall :=
  | NewStm32pio (path : string) (board : option string) (save_on_destruction : bool)
  | ConfigGet (section key : string)
  | GenerateCode
  | PioInit
  | Patch
  | Build
  | StartEditor (editor : string)
  | GetState
  | Clean.

(** The library is not part of the sources at hand and is taken as it
    answers: whether a call raises, what [config.get] and [state] return,
    each depending on the calls made before. *)
Record Lib := {
  lib_raises : list LibCall → LibCall → bool;
  lib_config : list LibCall → string → string → string;
  lib_state : list LibCall → string
}.

Inductive AppEvent :=
  | PrintHelp
  | Print (msg : string)
  | SetLevel (lvl : Level)
  | AppLog (lvl : Level) (msg : string)
  | LogException
  | Prompt (ioc_file : string)
  | Call (c : LibCall).

Global Instance LibCall_eq_dec : EqDecision LibCall.
Proof. solve_decision. Defined.

Global Instance AppEvent_eq_dec : EqDecision AppEvent.
Proof. solve_decision. Defined.

(** The library calls among some events, oldest first. *)
Definition calls (tr : list AppEvent) : list LibCall :=
  omap (λ e, match e with Call c => Some c | _ => None end) tr.

(** A piece of the body of [try]: from the events so far to the events
    after it, with its value, or with [None] when an [Exception] leaves
    it. *)
Definition M (A : Type) : Type := list AppEvent → list AppEvent * option A.

Definition ret {A} (a : A) : M A := λ tr, (tr, Some a).

Definition bind {A B} (m : M A) (k : A → M B) : M B := λ tr,
  match m tr with
  | (tr', Some a) => k a tr'
  | (tr', None) => (tr', None)
  end.

Definition emit (e : AppEvent) : M unit := λ tr, (tr ++ [e], Some tt).

Definition raise {A} : M A := λ tr, (tr, None).

Definition when (b : bool) (m : M unit) : M unit := if b then m else ret tt.

(** A call on the library: it is made, and it returns or raises. *)
Definition call (lib : Lib) (c : LibCall) : M unit := λ tr,
  (tr ++ [Call c], if lib_raises lib (calls tr) c then None else Some tt).

(** [project.config.get(section, key)] *)
Definition config_get (lib : Lib) (section key : string) : M string := λ tr,
  (tr ++ [Call (ConfigGet section key)],
   if lib_raises lib (calls tr) (ConfigGet section key) then None
   else Some (lib_config lib (calls tr) section key)).

(** [print(project.state)] *)
Definition print_state (lib : Lib) : M unit := λ tr,
  if lib_raises lib (calls tr) GetState then (tr ++ [Call GetState], None)
  else (tr ++ [Call GetState; Print (lib_state lib (calls tr))], Some tt).

End App.

Notation "m1 ;;; m2" := (App.bind m1 (λ _, m2))
  (at level 100, m2 at level 200, right associativity, only parsing).

Module AppMain.
Import App.

(** [str.lower] on the characters of ASCII. (Python lowers the other
    characters as well; none of them becomes a character of the replies
    compared with below.) *)
Definition lower_ascii (c : Ascii.ascii) : Ascii.ascii :=
  let n := Ascii.nat_of_ascii c in
  if (65 <=? n) && (n <=? 90) then Ascii.ascii_of_nat (n + 32) else c.

Fixpoint lower (s : string) : string :=
  match s with
  | EmptyString => EmptyString
  | String c s' => String (lower_ascii c) (lower s')
  end.

Definition says_yes (reply : string) : bool :=
  bool_decide (lower reply ∈ ["y"; "yes"; "true"; "1"]).

Definition says_no (reply : string) : bool :=
  bool_decide (lower reply ∈ ["n"; "no"; "false"; "0"]).

(** [if args.editor: project.start_editor(args.editor)] *)
Definition editor_given (args : Namespace) : option string :=
  match editor args with
  | Some e => if String.eqb e "" then None else Some e
  | None => None
  end.

Definition maybe_start_editor (lib : Lib) (args : Namespace) : M unit :=
  match editor_given args with
  | Some e => call lib (StartEditor e)
  | None => ret tt
  end.

(** [parse_args]: [parser] stands for [root_parser.parse_args], [None] being
    its [SystemExit] (a usage error, [--help], [--version]). The events are
    what has been printed. *)
Definition parse_args (parser : list string → option Namespace) (args : list string)
  : list AppEvent * outcome (option Namespace) :=
  if length args =? 0 then ([PrintHelp], Returned None)
  else match parser args with
       | Some ns => ([], Returned (Some ns))
       | None => ([], Raised "SystemExit")
       end.

(** The [while True] of the [clean] subcommand; [replies] are the lines
    [input] will return, and [input] raises [EOFError] when they are used
    up. The prompt is formatted, reading the config, before [input] is
    called. *)
Fixpoint ask_and_clean (lib : Lib) (replies : list string) : M unit :=
  App.bind (config_get lib "project" "ioc_file") (λ ioc_file,
    match replies with
    | [] => emit (Prompt ioc_file) ;;; raise
    | reply :: replies' =>
        emit (Prompt ioc_file) ;;;
        if says_yes reply then call lib Clean
        else if says_no reply then ret tt
        else ask_and_clean lib replies'
    end).

(** The body of [try] in [main]. *)
Definition main_routine (lib : Lib) (args : Namespace) (replies : list string) : M unit :=
  if bool_decide (subcommand args = Some "init") then
    call lib (NewStm32pio (project_path args) (Some (board args)) true) ;;;
    when (String.eqb (board args) "")
      (emit (AppLog WARNING
         "STM32 PlatformIO board is not specified, it will be needed on PlatformIO project creation")) ;;;
    emit (AppLog INFO
      "project has been initialized. You can now edit stm32pio.ini config file") ;;;
    maybe_start_editor lib args
  else if bool_decide (subcommand args = Some "new") then
    call lib (NewStm32pio (project_path args) (Some (board args)) true) ;;;
    App.bind (config_get lib "project" "board") (λ b,
      if String.eqb b "" then raise
      else
        call lib GenerateCode ;;;
        call lib PioInit ;;;
        call lib Patch ;;;
        when (with_build args) (call lib Build) ;;;
        maybe_start_editor lib args)
  else if bool_decide (subcommand args = Some "generate") then
    call lib (NewStm32pio (project_path args) None false) ;;;
    call lib GenerateCode ;;;
    when (with_build args) (call lib Build) ;;;
    maybe_start_editor lib args
  else if bool_decide (subcommand args = Some "status") then
    call lib (NewStm32pio (project_path args) None false) ;;;
    print_state lib
  else if bool_decide (subcommand args = Some "clean") then
    call lib (NewStm32pio (project_path args) None false) ;;;
    if quiet args then call lib Clean
    else ask_and_clean lib replies
  else ret tt.

(** The line [main] prints when there is nothing to do; it starts with a
    newline. *)
Definition no_arguments_message : string :=
  String (Ascii.ascii_of_nat 10) "No arguments were given, exiting...".

(** [main]: the events and the return code, or the [SystemExit] that
    [parse_args] lets through. [argv] is [sys.argv[1:]], used when
    [sys_argv] is [None]. Setting up the logger's handler and formatter is
    left out. *)
Definition main (parser : list string → option Namespace) (lib : Lib)
    (argv : list string) (sys_argv : option (list string)) (replies : list string)
  : list AppEvent * outcome Z :=
  let sys_argv := default argv sys_argv in
  match parse_args parser sys_argv with
  | (tr, Returned (Some args)) =>
      match subcommand args with
      | Some _ =>
          let tr := tr ++ [SetLevel (if 0 <? verbose args then DEBUG else INFO);
                           AppLog DEBUG "debug logging enabled"] in
          match main_routine lib args replies tr with
          | (tr, Some _) => (tr, Returned 0%Z)
          | (tr, None) => (tr ++ [LogException], Returned (-1)%Z)
          end
      | None => (tr ++ [Print no_arguments_message], Returned 0%Z)
      end
  | (tr, Returned None) => (tr ++ [Print no_arguments_message], Returned 0%Z)
  | (tr, Raised e) => (tr, Raised e)
  | (tr, Waiting) => (tr, Waiting)
  end.

End AppMain.

(** A piece of [main] goes on in an orderly way: it only adds events, it
    logs no exception itself, and a call on the library that raises is the
    last thing it does. *)
Definition orderly (lib : App.Lib) {A} (m : App.M A) : Prop :=
  ∀ tr, ∃ evs,
    (m tr).1 = tr ++ evs ∧
    (App.LogException ∉ evs) ∧
    ∀ pre c post,
      evs = pre ++ App.Call c :: post →
      App.lib_raises lib (App.calls (tr ++ pre)) c = true →
      post = [] ∧ (m tr).2 = None.

(** A piece of [main] makes only calls on the library that satisfy [P]. *)
Definition only_calls (P : App.LibCall → Prop) {A} (m : App.M A) : Prop :=
  ∀ tr, ∃ evs,
    (m tr).1 = tr ++ evs ∧ ∀ c, c ∈ App.calls evs → P c.

(** The first reply that says yes or no, as yes ([true]) or no. *)
Fixpoint first_decisive (replies : list string) : option bool :=
  match replies with
  | [] => None
  | reply :: replies' =>
      if AppMain.says_yes reply then Some true
      else if AppMain.says_no reply then Some false
      else first_decisive replies'
  end.

(** How often the [clean] subcommand asks: once more after every reply that
    says neither yes nor no, the last time in vain when the replies are used
    up. *)
Fixpoint asked (replies : list string) : nat :=
  match replies with
  | [] => 1
  | reply :: replies' =>
      if AppMain.says_yes reply || AppMain.says_no reply then 1 else S (asked replies')
  end.

Definition is_prompt (e : App.AppEvent) : bool :=
  match e with App.Prompt _ => true | _ => false end.

Definition prompts (tr : list App.AppEvent) : nat :=
  length (filter (λ e, is_prompt e = true) tr).

(** The events of [main] up to the body of [try]. *)
Definition logging_set_up (args : App.Namespace) : list App.AppEvent :=
  [App.SetLevel (if 0 <? App.verbose args then DEBUG else INFO);
   App.AppLog DEBUG "debug logging enabled"].

(** A library on which nothing raises, with an empty board in its config;
    and one whose [generate_code] raises. *)
Definition lib_quiet : App.Lib :=
  {| App.lib_raises := λ _ _, false;
     App.lib_config := λ _ _ key, if String.eqb key "board" then "" else "project.ioc";
     App.lib_state := λ _, "INITIALIZED" |}.

Definition lib_failing : App.Lib :=
  {| App.lib_raises := λ _ c, bool_decide (c = App.GenerateCode);
     App.lib_config := λ _ _ _, "nucleo_f031k6";
     App.lib_state := λ _, "INITIALIZED" |}.

(** A parser for the command lines used below. *)
Definition args_sample (sub : string) : App.Namespace :=
  {| App.subcommand := Some sub; App.verbose := 0; App.project_path := "/home/user/projA";
     App.board := "nucleo_f031k6"; App.editor := Some "code"; App.with_build := true;
     App.quiet := false |}.

Definition parser_sample (args : list string) : option App.Namespace :=
  match args with
  | [sub] => Some (args_sample sub)
  | _ => None
  end.

(** * Properties *)

(** An event that differs from every member of an explicit list. *)
Ltac not_in_list :=
  let H := fresh "H" in
  intros H; simpl in H;
  repeat (apply elem_of_cons in H as [H|H]; [discriminate H|]);
  by apply elem_of_nil in H.

Section settings_facts.
Import Settings.

Lemma prefix_snoc gs g : prefix (gs ++ [g]) = prefix gs ++ group_key g.
Proof. unfold prefix. rewrite fmap_app, concat_app. simpl. by rewrite (right_id_L [] (++)). Qed.

Lemma removelast_snoc {A} (l : list A) x : removelast (l ++ [x]) = l.
Proof. apply removelast_last. Qed.

Lemma array_entries_lookup p idx paths k v :
  array_entries p idx paths !! k = Some v ↔
  ∃ i x, paths !! i = Some x ∧ k = p ++ [Idx (idx + i); Name "path"] ∧ v = VStr x.
Proof.
  revert idx. induction paths as [|y paths IH]; intros idx; simpl.
  - rewrite lookup_empty. split; [done | by intros (i & x & ? & _)].
  - rewrite lookup_insert. case_decide as Hk.
    + split.
      * intros [= <-]. exists 0, y. by rewrite Nat.add_0_r.
      * intros (i & x & Hi & -> & ->). destruct i as [|i]; simpl in Hi.
        -- by simplify_eq.
        -- apply (inj (app p)) in Hk. simplify_eq. lia.
    + rewrite IH. split.
      * intros (i & x & Hi & -> & ->). exists (S i), x.
        by rewrite Nat.add_succ_r.
      * intros (i & x & Hi & -> & ->). destruct i as [|i]; simpl in Hi.
        -- rewrite Nat.add_0_r in Hk. done.
        -- exists i, x. by rewrite Nat.add_succ_r.
Qed.


Lemma array_entries_lookup_other p idx paths k :
  ¬ p `prefix_of` k → array_entries p idx paths !! k = None.
Proof.
  intros Hk. apply eq_None_not_Some.
  intros [v (i & x & _ & -> & _)%array_entries_lookup].
  apply Hk. by apply prefix_app_r.
Qed.

Lemma array_entries_lookup_size p idx paths :
  array_entries p idx paths !! (p ++ [Name "size"]) = None.
Proof.
  apply eq_None_not_Some.
  intros [v (i & x & _ & Hk & _)%array_entries_lookup].
  apply (inj (app p)) in Hk. done.
Qed.

End settings_facts.

Section save_facts.
Import Settings.

Lemma saved_paths_to_save ps : saved_paths (projects_to_save ps) = saved_paths ps.
Proof.
  unfold saved_paths, projects_to_save.
  induction ps as [|p ps IH]; [done|].
  rewrite filter_cons. destruct (project p) as [pr|] eqn:Hp.
  - rewrite decide_True by eauto. simpl. rewrite Hp. simpl. by f_equal.
  - rewrite decide_False by (by intros [? ?]). simpl. by rewrite Hp.
Qed.

Lemma length_to_save ps : length (projects_to_save ps) = length (saved_paths ps).
Proof.
  unfold saved_paths, projects_to_save.
  induction ps as [|p ps IH]; [done|].
  rewrite filter_cons. destruct (project p) as [pr|] eqn:Hp.
  - rewrite decide_True by eauto. simpl. rewrite Hp. simpl. by f_equal.
  - rewrite decide_False by (by intros [? ?]). simpl. by rewrite Hp.
Qed.

Lemma to_save_constructed ps : Forall (λ p, is_Some (project p)) (projects_to_save ps).
Proof. apply Forall_forall. intros p [? _]%list_elem_of_filter. done. Qed.

(** The loop writes the paths at consecutive indices and never raises on
    constructed projects. *)
Lemma write_paths_spec ps : ∀ idx m base a io g,
  g ≤ idx →
  Forall (λ p, is_Some (project p)) ps →
  ∃ io',
    write_paths idx ps
      {| store := m;
         stack := base ++ [{| g_name := a; g_index := io; g_guess := Some g |}] |}
    = (Returned tt,
       {| store := array_entries (prefix base ++ [Name a]) idx (saved_paths ps) ∪ m;
          stack := base ++ [{| g_name := a; g_index := io';
                               g_guess := Some (match ps with
                                                | [] => g
                                                | _ => idx + length ps
                                                end) |}] |}).
Proof.
  induction ps as [|p ps IH]; intros idx m base a io g Hg Hall.
  - exists io. simpl. by rewrite (left_id_L ∅ (∪)).
  - apply Forall_cons in Hall as [[pr Hp] Hall].
    simpl. rewrite Hp.
    unfold setArrayIndex, setValue. simpl.
    rewrite last_snoc, removelast_snoc. simpl.
    destruct (IH (S idx)
                (<[prefix (base ++ [{| g_name := a; g_index := Some idx;
                                       g_guess := Some (g `max` S idx) |}])
                   ++ [Name "path"] := VStr (Stm32pio.path pr)]> m)
                base a (Some idx) (g `max` S idx)) as [io' ->]; [lia | done |].
    exists io'. f_equal. f_equal.
    + unfold saved_paths. simpl.
      rewrite prefix_snoc. unfold group_key. simpl.
      replace ((prefix base ++ [Name a; Idx idx]) ++ [Name "path"])
        with ((prefix base ++ [Name a]) ++ [Idx idx; Name "path"])
        by (by rewrite <- !app_assoc).
      rewrite <- insert_union_l. rewrite insert_union_r; [done|].
      apply eq_None_not_Some.
      intros [v (i & x & _ & Hk & _)%array_entries_lookup].
      apply (inj (app _)) in Hk. simplify_eq. lia.
    + destruct ps; simpl; do 4 f_equal; lia.
Qed.

End save_facts.

Section wait_facts.
Variable view : nat → list ProjectListItem.




End wait_facts.

Section save_body.
Import Settings.

Lemma filter_below_lookup_None (p k : list seg) (m : gmap (list seg) value) :
  p `prefix_of` k → filter (λ kv, ¬ p `prefix_of` kv.1) m !! k = None.
Proof.
  intros Hk. apply map_lookup_filter_None. right. intros v _ Hn. by apply Hn.
Qed.

(** What the body computes once the wait is over. *)
Lemma save_returns view fuel t s :
  wait_loaded view fuel 0 = Some t →
  _saveInSettings view fuel s =
  (Returned tt,
   {| store := saved_store (projects_key (stack s)) (saved_paths (view (S t))) (store s);
      stack := stack s |},
   [Log INFO (saved_message (length (saved_paths (view (S t)))))]).
Proof.
  intros Hwait. unfold _saveInSettings. rewrite Hwait.
  destruct s as [m gs].
  unfold beginWriteArray, Settings.remove, beginGroup. cbn [store stack].
  destruct (write_paths_spec (projects_to_save (view (S t))) 0
              (delete (prefix (gs ++ [{| g_name := "app"; g_index := None; g_guess := None |}])
                         ++ [Name "projects"; Name "size"])
                 (filter (λ kv, ¬ (prefix (gs ++ [{| g_name := "app"; g_index := None;
                                                     g_guess := None |}])
                                     ++ [Name "projects"]) `prefix_of` kv.1) m))
              (gs ++ [{| g_name := "app"; g_index := None; g_guess := None |}])
              "projects" None 0) as [io' ->]; [lia | apply to_save_constructed |].
  unfold endArray, endGroup. cbn [store stack].
  rewrite last_snoc, removelast_snoc. cbn [store stack g_guess g_name].
  rewrite removelast_snoc.
  rewrite saved_paths_to_save, length_to_save.
  rewrite prefix_snoc. unfold group_key. cbn [g_name g_index].
  unfold saved_store, projects_key.
  replace ((prefix gs ++ [Name "app"]) ++ [Name "projects"; Name "size"])
    with ((prefix gs ++ [Name "app"; Name "projects"]) ++ [Name "size"])
    by (by rewrite <- !app_assoc).
  replace ((prefix gs ++ [Name "app"]) ++ [Name "projects"])
    with (prefix gs ++ [Name "app"; Name "projects"])
    by (by rewrite <- !app_assoc).
  rewrite delete_id by (apply filter_below_lookup_None; by apply prefix_app_r).
  assert (match projects_to_save (view (S t)) with
          | [] => 0
          | _ => 0 + length (saved_paths (view (S t)))
          end = length (saved_paths (view (S t)))) as ->; [|done].
  destruct (projects_to_save (view (S t))) eqn:E; [|done].
  apply (f_equal length) in E. by rewrite length_to_save in E.
Qed.

End save_body.

Section saved_store_facts.
Import Settings.
Variables (p : list seg) (paths : list string) (m : gmap (list seg) value).




Lemma saved_store_frame k :
  ¬ p `prefix_of` k → saved_store p paths m !! k = m !! k.
Proof.
  intros Hk. unfold saved_store. rewrite lookup_insert_ne.
  - rewrite lookup_union_r by by apply array_entries_lookup_other.
    destruct (m !! k) as [v|] eqn:Hv.
    + by apply map_lookup_filter_Some_2.
    + apply map_lookup_filter_None_2. by left.
  - intros <-. apply Hk. by apply prefix_app_r.
Qed.


End saved_store_facts.









(** * Duplicates *)

Lemma samefile_cases fs a b :
  (∃ v, samefile fs a b = Returned v) ∨
  samefile fs a b = Raised "OSError" ∨
  (samefile fs a b = Raised "ValueError" ∧ (fs a = StatValueError ∨ fs b = StatValueError)).
Proof.
  unfold samefile. destruct (fs a); [destruct (fs b)|..]; eauto.
Qed.

(** A step of the generator yields an answer, or it raises the
    [ValueError] that [samefile] has raised. *)
Lemma is_duplicate_of_cases fs list_item path :
  (∃ b, is_duplicate_of fs list_item path = Returned b) ∨
  (is_duplicate_of fs list_item path = Raised "ValueError" ∧
   ∃ pr, project list_item = Some pr ∧
         samefile fs (Stm32pio.path pr) path = Raised "ValueError").
Proof.
  unfold is_duplicate_of. destruct (project list_item) as [pr|]; [|eauto].
  destruct (samefile_cases fs (Stm32pio.path pr) path)
    as [[[] Hsame] | [Hsame | [Hsame _]]]; rewrite Hsame; simpl; eauto 10.
Qed.

Lemma first_true_spec answers : ∀ idx,
  (0 ≤ idx)%Z →
  (first_true idx answers = Returned (-1)%Z ↔ ∀ a, a ∈ answers → a = Returned false) ∧
  (∀ i, first_true idx answers = Returned (idx + Z.of_nat i)%Z ↔
        answers !! i = Some (Returned true) ∧
        ∀ j, j < i → answers !! j = Some (Returned false)) ∧
  (∀ r, first_true idx answers = Returned r →
        r = (-1)%Z ∨ (idx ≤ r < idx + Z.of_nat (length answers))%Z) ∧
  (∀ e, first_true idx answers = Raised e ↔
        ∃ i, answers !! i = Some (Raised e) ∧
             ∀ j, j < i → answers !! j = Some (Returned false)) ∧
  (first_true idx answers = Waiting → Waiting ∈ answers).
Proof.
  induction answers as [|a answers IH]; intros idx Hidx.
  - simpl. split; [|split; [|split; [|split]]].
    + split; [by intros _ a ?%elem_of_nil | done].
    + intros i. split; [intros [= ?]; lia | by intros [? _]].
    + intros r [= <-]. by left.
    + intros e. split; [done | by intros (i & ? & _)].
    + done.
  - destruct (IH (idx + 1)%Z ltac:(lia)) as (IH1 & IH2 & IH3 & IH4 & IH5).
    destruct a as [[|]| e' |]; simpl.
    + (* the first answer is positive *)
      split; [|split; [|split; [|split]]].
      * split; [intros [= ?]; lia|]. intros H. by specialize (H _ (list_elem_of_here _ _)).
      * intros i. split.
        -- intros [= Hi]. assert (i = 0) as -> by lia. split; [done | lia].
        -- intros [Hi Hbefore]. destruct i as [|i]; [do 2 f_equal; lia|].
           specialize (Hbefore 0 ltac:(lia)). done.
      * intros r [= <-]. right. lia.
      * intros e. split; [done|]. intros ([|i] & Hi & Hbefore); [done|].
        specialize (Hbefore 0 ltac:(lia)). done.
      * done.
    + (* the first answer is negative *)
      split; [|split; [|split; [|split]]].
      * rewrite IH1. split.
        -- intros H a [-> | Ha]%elem_of_cons; [done | by apply H].
        -- intros H a Ha. apply H. by right.
      * intros i. destruct i as [|i].
        -- split; [|by intros [? _]]. intros Hi.
           destruct (IH3 _ Hi); lia.
        -- replace (idx + Z.of_nat (S i))%Z with (idx + 1 + Z.of_nat i)%Z by lia.
           rewrite IH2. simpl. split.
           ++ intros [Hi Hbefore]. split; [done|].
              intros [|j] Hj; [done|]. apply Hbefore. lia.
           ++ intros [Hi Hbefore]. split; [done|].
              intros j Hj. apply (Hbefore (S j)). lia.
      * intros r Hr. destruct (IH3 _ Hr) as [?|?]; [by left | right; lia].
      * intros e. rewrite IH4. split.
        -- intros (i & Hi & Hbefore). exists (S i). split; [done|].
           intros [|j] Hj; [done|]. apply Hbefore. lia.
        -- intros ([|i] & Hi & Hbefore); [done|]. exists i. split; [done|].
           intros j Hj. apply (Hbefore (S j)). lia.
      * intros Hw. right. by apply IH5.
    + (* the first step raises *)
      split; [|split; [|split; [|split]]].
      * split; [done|]. intros H. by specialize (H _ (list_elem_of_here _ _)).
      * intros i. split; [done|]. intros [Hi Hbefore]. destruct i as [|i]; [done|].
        specialize (Hbefore 0 ltac:(lia)). done.
      * done.
      * intros e. split.
        -- intros [= ->]. exists 0. split; [done | lia].
        -- intros ([|i] & Hi & Hbefore); [by simplify_eq/=|].
           specialize (Hbefore 0 ltac:(lia)). done.
      * done.
    + split; [|split; [|split; [|split]]].
      * split; [done|]. intros H. by specialize (H _ (list_elem_of_here _ _)).
      * intros i. split; [done|]. intros [Hi Hbefore]. destruct i as [|i]; [done|].
        specialize (Hbefore 0 ltac:(lia)). done.
      * done.
      * intros e. split; [done|]. intros ([|i] & Hi & Hbefore); [done|].
        specialize (Hbefore 0 ltac:(lia)). done.
      * intros _. by left.
Qed.

Section duplicate_index_facts.
Variables (fs : string → stat_result) (self : ProjectsList) (path : string).

Lemma answers_lookup i :
  each_project_is_duplicate_of fs self path !! i =
  (λ list_item, is_duplicate_of fs list_item path) <$> projects self !! i.
Proof. unfold each_project_is_duplicate_of. apply list_lookup_fmap. Qed.

Lemma answers_before i :
  (∀ j, j < i → each_project_is_duplicate_of fs self path !! j = Some (Returned false)) ↔
  i ≤ length (projects self) ∧
  ∀ j list_item, j < i → projects self !! j = Some list_item →
                 is_duplicate_of fs list_item path = Returned false.
Proof.
  split.
  - intros H. split.
    + destruct i as [|i]; [lia|]. specialize (H i ltac:(lia)).
      rewrite answers_lookup in H.
      destruct (projects self !! i) as [u|] eqn:Hu; [|done].
      apply lookup_lt_Some in Hu. lia.
    + intros j u Hj Hu. specialize (H j Hj). rewrite answers_lookup, Hu in H.
      by simplify_eq/=.
  - intros [Hlen H] j Hj. rewrite answers_lookup.
    destruct (lookup_lt_is_Some_2 (projects self) j) as [u Hu]; [lia|].
    rewrite Hu. simpl. f_equal. by eapply H.
Qed.

Lemma duplicate_index_None :
  duplicate_index fs self path = Returned (-1)%Z ↔
  ∀ list_item, list_item ∈ projects self →
               is_duplicate_of fs list_item path = Returned false.
Proof.
  unfold duplicate_index.
  destruct (first_true_spec (each_project_is_duplicate_of fs self path) 0 ltac:(lia))
    as (H1 & _). rewrite H1. unfold each_project_is_duplicate_of. split.
  - intros H list_item Hin. apply H.
    by apply (list_elem_of_fmap_2 (λ l, is_duplicate_of fs l path)).
  - intros H a (list_item & -> & Hin)%list_elem_of_fmap. by apply H.
Qed.

Lemma duplicate_index_Some i :
  duplicate_index fs self path = Returned (Z.of_nat i) ↔
  (∃ list_item, projects self !! i = Some list_item ∧
                is_duplicate_of fs list_item path = Returned true) ∧
  (∀ j list_item, j < i → projects self !! j = Some list_item →
                  is_duplicate_of fs list_item path = Returned false).
Proof.
  unfold duplicate_index.
  destruct (first_true_spec (each_project_is_duplicate_of fs self path) 0 ltac:(lia))
    as (_ & H2 & _).
  specialize (H2 i). rewrite Z.add_0_l in H2. rewrite H2.
  rewrite answers_before, answers_lookup. split.
  - intros [Hi [_ Hbefore]]. split; [|done].
    destruct (projects self !! i) as [u|]; [|done]. exists u. by simplify_eq/=.
  - intros [(u & Hu & Hdup) Hbefore]. split; [by rewrite Hu; simpl; rewrite Hdup|].
    split; [|done]. apply lookup_lt_Some in Hu. lia.
Qed.

Lemma duplicate_index_range idx :
  duplicate_index fs self path = Returned idx →
  idx = (-1)%Z ∨ (0 ≤ idx < Z.of_nat (length (projects self)))%Z.
Proof.
  unfold duplicate_index.
  destruct (first_true_spec (each_project_is_duplicate_of fs self path) 0 ltac:(lia))
    as (_ & _ & H3 & _).
  intros Hr. apply H3 in Hr. unfold each_project_is_duplicate_of in Hr.
  rewrite length_fmap in Hr. lia.
Qed.

Lemma duplicate_index_Raised e :
  duplicate_index fs self path = Raised e ↔
  ∃ i list_item,
    projects self !! i = Some list_item ∧
    is_duplicate_of fs list_item path = Raised e ∧
    ∀ j list_item', j < i → projects self !! j = Some list_item' →
                    is_duplicate_of fs list_item' path = Returned false.
Proof.
  unfold duplicate_index.
  destruct (first_true_spec (each_project_is_duplicate_of fs self path) 0 ltac:(lia))
    as (_ & _ & _ & H4 & _).
  rewrite H4. split.
  - intros (i & Hi & Hbefore). apply answers_before in Hbefore as [_ Hbefore].
    rewrite answers_lookup in Hi.
    destruct (projects self !! i) as [u|] eqn:Hu; [|done].
    exists i, u. by simplify_eq/=.
  - intros (i & u & Hu & He & Hbefore). exists i. split.
    + by rewrite answers_lookup, Hu; simpl; rewrite He.
    + apply answers_before. split; [|done]. apply lookup_lt_Some in Hu. lia.
Qed.

(** The index is found, or the [ValueError] of a [samefile] leaves the
    generator and with it [next]. *)
Lemma duplicate_index_cases :
  (∃ idx, duplicate_index fs self path = Returned idx) ∨
  (duplicate_index fs self path = Raised "ValueError" ∧
   ∃ list_item pr, list_item ∈ projects self ∧ project list_item = Some pr ∧
                   samefile fs (Stm32pio.path pr) path = Raised "ValueError").
Proof.
  destruct (duplicate_index fs self path) as [idx| e |] eqn:E.
  - left. by exists idx.
  - right. apply duplicate_index_Raised in E as (i & u & Hu & He & _).
    destruct (is_duplicate_of_cases fs u path) as [[b Hb] | [Hv Hpr]]; [congruence|].
    assert (e = "ValueError") as -> by congruence. split; [done|].
    destruct Hpr as (pr & Hpr & Hsame). exists u, pr.
    split; [by eapply list_elem_of_lookup_2 | done].
  - unfold duplicate_index in E.
    destruct (first_true_spec (each_project_is_duplicate_of fs self path) 0 ltac:(lia))
      as (_ & _ & _ & _ & H5).
    apply H5 in E. unfold each_project_is_duplicate_of in E.
    apply list_elem_of_fmap in E as (u & Hw & _).
    destruct (is_duplicate_of_cases fs u path) as [[b Hb] | [Hv _]]; congruence.
Qed.

End duplicate_index_facts.

(** The rule of the specification does not decide duplicates: [item_A] is
    constructed and shows the name ["projA"]; the candidate ["projA"] does
    not exist, so [samefile] raises and the answer is [False], although the
    name is literally the candidate. *)
Lemma duplicate_rule_refuted :
  ¬ (is_duplicate_of fs_sample item_A "projA" = Returned true ↔
     duplicate_rule fs_sample item_A "projA").
Proof.
  intros [_ H]. assert (is_duplicate_of fs_sample item_A "projA" = Returned true) as Hdup.
  { apply H. right. reflexivity. }
  vm_compute in Hdup. discriminate Hdup.
Qed.

(** C3 (amended): a candidate path is a duplicate of a project exactly when
    the project is constructed and [samefile] says that its path and the
    candidate are the same file, or the project's name is literally the
    candidate and [samefile], which is asked whenever the project is
    constructed, has not failed. A [samefile] that fails with [OSError]
    makes the answer [False], also when the name is the candidate, and no
    [OSError] reaches the caller. The index chosen by [addListItem] is that
    of the first project of the list with a positive answer, and -1 when
    there is none; the one exception that can reach the caller instead of an
    index is the [ValueError] of a [samefile]. *)
Theorem is_duplicate_of_spec fs self path :
  (∀ list_item,
     is_duplicate_of fs list_item path = Returned true ↔
     (∃ pr, project list_item = Some pr ∧
            samefile fs (Stm32pio.path pr) path = Returned true) ∨
     (name list_item = path ∧
      ∀ pr, project list_item = Some pr →
            ∃ b, samefile fs (Stm32pio.path pr) path = Returned b)) ∧
  (∀ list_item pr,
     project list_item = Some pr →
     samefile fs (Stm32pio.path pr) path = Raised "OSError" →
     is_duplicate_of fs list_item path = Returned false) ∧
  (∀ list_item, is_duplicate_of fs list_item path ≠ Raised "OSError") ∧
  (duplicate_index fs self path = Returned (-1)%Z ↔
   ∀ list_item, list_item ∈ projects self →
                is_duplicate_of fs list_item path = Returned false) ∧
  (∀ i, duplicate_index fs self path = Returned (Z.of_nat i) ↔
        (∃ list_item, projects self !! i = Some list_item ∧
                      is_duplicate_of fs list_item path = Returned true) ∧
        (∀ j list_item, j < i → projects self !! j = Some list_item →
                        is_duplicate_of fs list_item path = Returned false)) ∧
  ((∃ idx, duplicate_index fs self path = Returned idx ∧
           (idx = (-1)%Z ∨ (0 ≤ idx < Z.of_nat (length (projects self)))%Z)) ∨
   (duplicate_index fs self path = Raised "ValueError" ∧
    ∃ list_item pr, list_item ∈ projects self ∧ project list_item = Some pr ∧
                    samefile fs (Stm32pio.path pr) path = Raised "ValueError")).
Proof.
  split; [|split; [|split; [|split; [|split]]]].
  - intros list_item. unfold is_duplicate_of.
    destruct (project list_item) as [pr|].
    + destruct (samefile_cases fs (Stm32pio.path pr) path)
        as [[[] Hsame] | [Hsame | [Hsame _]]]; rewrite Hsame; simpl.
      * split; [|done]. intros _. left. by exists pr.
      * split.
        -- intros [= ->%bool_decide_eq_true]. right. split; [done|].
           intros pr' [= <-]. by exists false.
        -- intros [(pr' & [= <-] & ?) | [-> _]]; [congruence|].
           by rewrite bool_decide_true.
      * split; [done|].
        intros [(pr' & [= <-] & ?) | [_ H]]; [congruence|].
        destruct (H pr eq_refl) as [b Hb]. congruence.
      * split; [done|].
        intros [(pr' & [= <-] & ?) | [_ H]]; [congruence|].
        destruct (H pr eq_refl) as [b Hb]. congruence.
    + split.
      * intros [= ->%bool_decide_eq_true]. right. by split.
      * intros [(pr' & ? & _) | [-> _]]; [done|]. by rewrite bool_decide_true.
  - intros list_item pr Hpr Hsame. unfold is_duplicate_of. by rewrite Hpr, Hsame.
  - intros list_item.
    destruct (is_duplicate_of_cases fs list_item path) as [[b ->] | [-> _]]; done.
  - apply duplicate_index_None.
  - apply duplicate_index_Some.
  - destruct (duplicate_index_cases fs self path) as [[idx Hidx] | Hraised].
    + left. exists idx. split; [done|]. by eapply duplicate_index_range.
    + by right.
Qed.

(** * Adding *)

Lemma proj_params_set_parent h kwargs :
  proj_params h (set_parent h kwargs) = proj_params h kwargs.
Proof.
  unfold proj_params, set_parent.
  destruct (kwargs !! KStr "parent") as [v|]; [destruct (truthy h v)|];
    by rewrite ?lookup_insert_ne.
Qed.

(** The branch that finds a duplicate. *)
Lemma addListItem_found fs path list_item_kwargs on_initialized self kwargs params len idx :
  duplicate_index fs self path = Returned idx →
  (idx > -1)%Z →
  copy_kwargs (heap self) list_item_kwargs = Returned kwargs →
  proj_params (heap self) kwargs = Returned (params, len) →
  ∃ existing,
    projects self !! Z.to_nat idx = Some existing ∧
    is_duplicate_of fs existing path = Returned true ∧
    addListItem fs path list_item_kwargs on_initialized self =
    Returned
      (existing,
       {| projects := projects self;
          heap := heap self;
          events :=
            events self
            ++ [Log WARNING ("This project is already in the list: " +:+ path)]
            ++ (if len =? 0 then []
                else [ItemLog (ident existing) INFO "updating parameters from the CLI... "
                        (params_value params);
                      Run (ident existing) "save_config" [params_value params]])
            ++ [GoToProject idx];
          constructed := constructed self |}).
Proof.
  intros Hidx Hdup Hcopy Hparams.
  destruct (duplicate_index_range fs self path idx Hidx) as [Hr|Hr]; [lia|].
  pose proof Hidx as Hi. rewrite <- (Z2Nat.id idx) in Hi by lia.
  apply duplicate_index_Some in Hi as [(existing & Hex & Hyes) _].
  exists existing. split; [done|]. split; [done|].
  unfold addListItem. rewrite Hcopy. simpl. rewrite Hidx. simpl.
  rewrite bool_decide_true by done.
  rewrite proj_params_set_parent, Hparams. simpl. rewrite Hex.
  unfold emit. destruct (len =? 0); simpl; by rewrite <- ?app_assoc.
Qed.



(** The branch that appends. *)
Lemma addListItem_new fs path list_item_kwargs on_initialized self kwargs h kwargs' :
  duplicate_index fs self path = Returned (-1)%Z →
  copy_kwargs (heap self) list_item_kwargs = Returned kwargs →
  insert_path path (heap self) (set_parent (heap self) kwargs) = Returned (h, kwargs') →
  addListItem fs path list_item_kwargs on_initialized self =
  Returned
    (new_item (constructed self) kwargs',
     {| projects := projects self ++ [new_item (constructed self) kwargs'];
        heap := h;
        events :=
          events self
          ++ [Construct (constructed self) kwargs']
          ++ match on_initialized with
             | Some callback => [Connect (constructed self) callback]
             | None => []
             end
          ++ [BeginInsertRows (length (projects self)) (length (projects self));
              EndInsertRows];
        constructed := S (constructed self) |}).
Proof.
  intros Hdup Hcopy Hins. unfold addListItem. rewrite Hcopy. simpl.
  rewrite Hdup. cbn [mbind outcome_bind]. rewrite bool_decide_false by lia.
  rewrite Hins. simpl. unfold emit, rowCount.
  destruct on_initialized; simpl; by rewrite <- ?app_assoc.
Qed.

(** Whatever the keyword arguments, a call that returns has left the list as
    it was or has appended the item it returns. *)
Lemma addListItem_projects fs path list_item_kwargs on_initialized self u self' :
  addListItem fs path list_item_kwargs on_initialized self = Returned (u, self') →
  projects self' =
  projects self ++
  (if bool_decide (duplicate_index fs self path = Returned (-1)%Z) then [u] else []).
Proof.
  unfold addListItem.
  destruct (copy_kwargs (heap self) list_item_kwargs) as [kwargs| |]; simpl; [|done..].
  destruct (duplicate_index fs self path) as [idx| |] eqn:Hidx; simpl; [|done..].
  destruct (duplicate_index_range _ _ _ _ Hidx) as [-> | Hr].
  - rewrite bool_decide_false by lia. rewrite bool_decide_true by done.
    destruct (insert_path _ _ _) as [[h kwargs']| |]; simpl; [|done..].
    destruct on_initialized; intros [= <- <-]; done.
  - rewrite bool_decide_true by lia.
    rewrite (bool_decide_false (Returned idx = _)) by (intros [= ?]; lia).
    destruct (proj_params _ _) as [[params len]| |]; simpl; [|done..].
    destruct (projects self !! _) as [existing|]; [|done].
    destruct (negb (len =? 0)); intros [= <- <-]; simpl; by rewrite app_nil_r.
Qed.

Lemma addListItem_not_Waiting fs path list_item_kwargs on_initialized self :
  addListItem fs path list_item_kwargs on_initialized self ≠ Waiting.
Proof.
  unfold addListItem, copy_kwargs.
  destruct list_item_kwargs as [l|]; [destruct (heap self !! l) as [[]|]|]; simpl;
    try done.
  all: destruct (duplicate_index_cases fs self path) as [[idx ->] | [-> _]]; simpl;
    try done.
  all: case_bool_decide; simpl.
  all: try (unfold proj_params;
            repeat (case_match; simpl; try done)).
  all: unfold insert_path; repeat (case_match; simpl; try done).
Qed.

(** When the duplicate check raises, so does the call. *)
Lemma addListItem_raises fs path list_item_kwargs on_initialized self kwargs e :
  copy_kwargs (heap self) list_item_kwargs = Returned kwargs →
  duplicate_index fs self path = Raised e →
  addListItem fs path list_item_kwargs on_initialized self = Raised e.
Proof. intros Hcopy Hdup. unfold addListItem. rewrite Hcopy. simpl. by rewrite Hdup. Qed.

(** Without keyword arguments the call returns once the duplicate check has
    given an index; it starts no save. *)
Lemma addListItem_plain fs path on_initialized self idx :
  duplicate_index fs self path = Returned idx →
  ∃ u self' evs,
    addListItem fs path None on_initialized self = Returned (u, self') ∧
    events self' = events self ++ evs ∧
    (PoolStartSave ∉ evs) ∧
    heap self' !! fresh (dom (heap self)) =
      (if bool_decide (idx = (-1)%Z)
       then Some (PyList [PyStr path]) else heap self !! fresh (dom (heap self))) ∧
    (∀ l, l ≠ fresh (dom (heap self)) → heap self' !! l = heap self !! l).
Proof.
  intros Hidx. destruct (duplicate_index_range _ _ _ _ Hidx) as [-> | Hr].
  - eexists _, _, _. split.
    { eapply addListItem_new; [done | done |].
      unfold insert_path, set_parent. rewrite lookup_empty.
      rewrite lookup_insert_ne by done. rewrite lookup_empty. done. }
    simpl. split; [done|]. split.
    { destruct on_initialized; not_in_list. }
    split; [by rewrite lookup_insert_eq|].
    intros l Hl. by rewrite lookup_insert_ne.
  - destruct (addListItem_found fs path None on_initialized self ∅ None 0 idx)
      as (existing & _ & _ & ->); [done | lia | done | done |].
    eexists _, _, _. split; [done|]. simpl. rewrite bool_decide_false by lia.
    split; [done|]. split; [|done]. not_in_list.
Qed.

(** Without keyword arguments the one exception that can leave the call is
    the [ValueError] of the duplicate check. *)
Lemma addListItem_plain_cases fs path on_initialized self :
  (∃ u self', addListItem fs path None on_initialized self = Returned (u, self')) ∨
  (addListItem fs path None on_initialized self = Raised "ValueError" ∧
   duplicate_index fs self path = Raised "ValueError").
Proof.
  destruct (duplicate_index_cases fs self path) as [[idx Hidx] | [Hraised _]].
  - left. destruct (addListItem_plain fs path on_initialized self idx Hidx)
      as (u & self' & _ & Hret & _). by exists u, self'.
  - right. split; [|done]. by eapply addListItem_raises.
Qed.

Lemma created_cons u b rs :
  created ((u, b) :: rs) = (if b then [u] else []) ++ created rs.
Proof. unfold created. rewrite filter_cons. simpl. by destruct b. Qed.

Lemma created_all rs :
  Forall (λ r, r.2 = true) rs → created rs = fst <$> rs.
Proof.
  induction 1 as [|[u b] rs Hb _ IH]; [done|].
  simpl in Hb. subst b. rewrite created_cons, IH. done.
Qed.

(** C9: a call of [addListItem] that finds no duplicate appends the item it
    constructs at the tail of the list and any call leaves the items already
    there where they are; hence in a run of calls with no removal in
    between, whatever the initialisation threads do to the items meanwhile,
    the list afterwards holds the objects of the list before followed by
    the objects the calls have constructed, in the order of the calls, and
    when the list starts empty and no call finds a duplicate, index [i]
    holds the object of the [i]-th call. The one exception that can end a
    run without keyword arguments is the [ValueError] of a duplicate
    check. *)
Theorem adds_keep_order fs settle requests :
  (∀ k u, ident (settle k u) = ident u) →
  ∀ k self,
    (∀ path kw cb u self',
       addListItem fs path kw cb self = Returned (u, self') →
       projects self' =
       projects self ++
       (if bool_decide (duplicate_index fs self path = Returned (-1)%Z) then [u] else [])) ∧
    match add_all fs settle k requests self with
    | Returned (rs, self') =>
        length rs = length requests ∧
        ident <$> projects self' = ident <$> (projects self ++ created rs) ∧
        (∀ i u, projects self !! i = Some u →
                ident <$> projects self' !! i = Some (ident u)) ∧
        (projects self = [] → Forall (λ r, r.2 = true) rs →
         ∀ i, ident <$> projects self' !! i = ident ∘ fst <$> rs !! i)
    | Raised e => e = "ValueError" ∨ ∃ r, r ∈ requests ∧ r.1.2 ≠ None
    | Waiting => False
    end.
Proof.
  intros Hsettle.
  assert (∀ rs (self self' : ProjectsList),
            ident <$> projects self' = ident <$> (projects self ++ created rs) →
            (∀ i u, projects self !! i = Some u →
                    ident <$> projects self' !! i = Some (ident u)) ∧
            (projects self = [] → Forall (λ r, r.2 = true) rs →
             ∀ i, ident <$> projects self' !! i = ident ∘ fst <$> rs !! i)) as Hfacts.
  { intros rs self self' E. split.
    - intros i u Hi. rewrite <- list_lookup_fmap, E, list_lookup_fmap.
      by rewrite (lookup_app_l_Some _ _ _ _ Hi).
    - intros Hnil Hall i. rewrite <- list_lookup_fmap, E, Hnil, created_all by done.
      simpl. by rewrite <- list_fmap_compose, list_lookup_fmap. }
  induction requests as [|[[path kw] cb] requests IH]; intros k self;
    (split; [intros ?????; apply addListItem_projects|]); simpl.
  - split; [done|]. assert (ident <$> projects self = ident <$> (projects self ++ created []))
      as E by by rewrite app_nil_r.
    split; [done|]. by apply Hfacts.
  - destruct (addListItem fs path kw cb self) as [[u self1]| e |] eqn:Hadd; simpl.
    + match goal with |- context [add_all fs settle (S k) requests ?s] =>
        destruct (IH (S k) s) as [_ IH'];
        destruct (add_all fs settle (S k) requests s) as [[rs self']| e |]
      end; simpl.
      * destruct IH' as (Hlen & E & _). simpl in E.
        assert (ident <$> projects self' = ident <$> (projects self ++
                  created ((u, bool_decide (duplicate_index fs self path = Returned (-1)%Z))
                             :: rs)))
          as E'.
        { rewrite E, created_cons, !fmap_app, <- list_fmap_compose.
          rewrite (list_fmap_ext (ident ∘ settle k) ident) by (intros; apply Hsettle).
          rewrite (addListItem_projects _ _ _ _ _ _ _ Hadd), fmap_app.
          by rewrite <- app_assoc. }
        split; [by rewrite Hlen|]. split; [done|]. by apply Hfacts.
      * destruct IH' as [-> | (r & Hr & Hkw)]; [by left | right].
        exists r. split; [by right | done].
      * done.
    + destruct kw as [l|].
      * right. exists (path, Some l, cb). split; [by left | done].
      * left. destruct (addListItem_plain_cases fs path cb self)
          as [(? & ? & Hret) | [Hraised _]]; congruence.
    + by apply addListItem_not_Waiting in Hadd.
Qed.

Lemma adds_keep_order_witness :
  (∀ k u, ident (settle_sample k u) = ident u) ∧
  ∃ rs self',
    add_all fs_sample settle_sample 0 requests_sample model_empty = Returned (rs, self') ∧
    rs.*2 = [true; true; false] ∧
    ident <$> projects self' = [0; 1] ∧
    ident <$> created rs = [0; 1].
Proof.
  assert (∀ k u, ident (settle_sample k u) = ident u) as Hsettle.
  { intros k u. unfold settle_sample.
    destruct (0 <? k); simpl; [|reflexivity].
    destruct (ident u =? 0) eqn:E; [|reflexivity].
    apply Nat.eqb_eq in E. simpl. by rewrite E. }
  split; [exact Hsettle|].
  destruct (adds_keep_order fs_sample settle_sample requests_sample Hsettle 0 model_empty)
    as [_ Hrun].
  destruct (add_all fs_sample settle_sample 0 requests_sample model_empty)
    as [[rs self']| |] eqn:E; vm_compute in E; [|discriminate E..].
  injection E as <- <-. destruct Hrun as (_ & Hids & _).
  eexists _, _. split; [reflexivity|]. split; [reflexivity|].
  split; [exact Hids | reflexivity].
Defined.

(** * Adding a batch *)



Lemma new_events_app self self' evs :
  events self' = events self ++ evs → new_events self self' = evs.
Proof. unfold new_events. intros ->. by rewrite drop_app_length. Qed.

Lemma marks_app evs1 evs2 : marks (evs1 ++ evs2) = marks evs1 ++ marks evs2.
Proof. unfold marks. apply filter_app. Qed.

Lemma added_mark_mono h h' path e : h ⊆ h' → added_mark h path e → added_mark h' path e.
Proof.
  intros Hsub [-> | (item & kwargs & l & -> & Hargs & Hl)]; [by left | right].
  exists item, kwargs, l. split; [done|]. split; [done|]. by eapply lookup_weaken.
Qed.

Lemma entry_mark_mono qurl h h' path_str e :
  h ⊆ h' → entry_mark qurl h path_str e → entry_mark qurl h' path_str e.
Proof.
  intros Hsub. unfold entry_mark. repeat case_match; try done; by apply added_mark_mono.
Qed.

(** A call without keyword arguments that returns has left one mark, that
    of its path, has started no save and has kept every object of the
    heap. *)
Lemma addListItem_plain_mark fs path self u self' :
  addListItem fs path None None self = Returned (u, self') →
  ∃ evs m,
    events self' = events self ++ evs ∧ (PoolStartSave ∉ evs) ∧
    marks evs = [m] ∧ added_mark (heap self') path m ∧ heap self ⊆ heap self'.
Proof.
  intros Hret.
  destruct (duplicate_index_cases fs self path) as [[idx Hidx] | [Hraised _]].
  2:{ rewrite (addListItem_raises _ _ None None _ ∅ _ eq_refl Hraised) in Hret. done. }
  destruct (duplicate_index_range _ _ _ _ Hidx) as [-> | Hr].
  - rewrite (addListItem_new fs path None None self ∅
               (<[fresh (dom (heap self)) := PyList [PyStr path]]> (heap self))
               (<[KStr "project_args" := PyRef (fresh (dom (heap self)))]>
                  (set_parent (heap self) ∅)) Hidx eq_refl) in Hret.
    2:{ unfold insert_path, set_parent. rewrite lookup_empty.
        rewrite lookup_insert_ne by done. by rewrite lookup_empty. }
    injection Hret as <- <-. eexists _, _. split; [cbn [events]; reflexivity|].
    split; [not_in_list|]. split; [reflexivity|]. cbn [heap]. split.
    + right. eexists _, _, _. split; [done|].
      split; [apply lookup_insert_eq | apply lookup_insert_eq].
    + apply insert_subseteq, not_elem_of_dom, is_fresh.
  - destruct (addListItem_found fs path None None self ∅ None 0 idx)
      as (existing & _ & _ & Hret'); [done | lia | done | done |].
    rewrite Hret in Hret'. injection Hret' as -> ->.
    eexists _, _. split; [cbn [events]; reflexivity|].
    split; [not_in_list|]. split; [reflexivity|]. split; [by left | done].
Qed.

Lemma add_path_mark qurl fs path_str self self1 :
  add_path qurl fs path_str self = Returned self1 →
  ∃ evs m,
    events self1 = events self ++ evs ∧ (PoolStartSave ∉ evs) ∧
    marks evs = [m] ∧ entry_mark qurl (heap self1) path_str m ∧ heap self ⊆ heap self1.
Proof.
  unfold add_path, entry_mark.
  destruct (isEmpty (qurl path_str)).
  { intros [= <-]. eexists _, _. split; [done|]. split; [not_in_list | done]. }
  destruct (isLocalFile (qurl path_str)).
  { destruct (addListItem fs _ None None self) as [[u s1]| |] eqn:E; [|done..].
    intros [= <-]. by eapply addListItem_plain_mark. }
  destruct (isRelative (qurl path_str)).
  { destruct (addListItem fs _ None None self) as [[u s1]| |] eqn:E; [|done..].
    intros [= <-]. by eapply addListItem_plain_mark. }
  intros [= <-]. eexists _, _. split; [done|]. split; [not_in_list | done].
Qed.

(** The exception of an entry can only be the [ValueError] of a duplicate
    check. *)
Lemma add_path_cases qurl fs path_str self :
  (∃ self1, add_path qurl fs path_str self = Returned self1) ∨
  add_path qurl fs path_str self = Raised "ValueError".
Proof.
  unfold add_path.
  destruct (isEmpty (qurl path_str)); [eauto|].
  destruct (isLocalFile (qurl path_str)).
  { destruct (addListItem_plain_cases fs (toLocalFile (qurl path_str)) None self)
      as [(u & s1 & ->) | [-> _]]; simpl; eauto. }
  destruct (isRelative (qurl path_str)); [|eauto].
  destruct (addListItem_plain_cases fs path_str None self)
    as [(u & s1 & ->) | [-> _]]; simpl; eauto.
Qed.

(** A batch that has been gone through: every entry has left its mark, in
    the order of the batch, and no save has been started. *)
Lemma add_paths_marks qurl fs paths : ∀ self self1,
  add_paths qurl fs paths self = Returned self1 →
  ∃ evs,
    events self1 = events self ++ evs ∧ (PoolStartSave ∉ evs) ∧
    Forall2 (entry_mark qurl (heap self1)) paths (marks evs) ∧
    heap self ⊆ heap self1.
Proof.
  induction paths as [|path_str paths IH]; intros self self1; simpl.
  - intros [= <-]. exists []. split; [by rewrite app_nil_r|].
    split; [by intros ?%elem_of_nil|]. split; [constructor | done].
  - destruct (add_path qurl fs path_str self) as [s1| |] eqn:E; simpl; [|done..].
    intros Hrest.
    destruct (add_path_mark _ _ _ _ _ E) as (evs1 & m & Hev1 & Hno1 & Hm1 & Hmark & Hsub1).
    destruct (IH _ _ Hrest) as (evs2 & Hev2 & Hno2 & Hmarks & Hsub2).
    exists (evs1 ++ evs2). split; [by rewrite Hev2, Hev1, <- app_assoc|].
    split; [by intros [?|?]%elem_of_app|].
    split; [|by etrans].
    rewrite marks_app, Hm1. simpl. constructor; [|done].
    by eapply entry_mark_mono.
Qed.

(** A batch that has not been gone through: its first entries have been,
    with no save, and the exception of the next one has ended it. *)
Lemma add_paths_raised qurl fs paths : ∀ self e,
  add_paths qurl fs paths self = Raised e →
  e = "ValueError" ∧
  ∃ done_ path_str rest self1,
    paths = done_ ++ path_str :: rest ∧
    add_paths qurl fs done_ self = Returned self1 ∧
    (PoolStartSave ∉ new_events self self1) ∧
    add_path qurl fs path_str self1 = Raised "ValueError".
Proof.
  induction paths as [|path_str paths IH]; intros self e; simpl; [done|].
  destruct (add_path_cases qurl fs path_str self) as [[s1 E] | E]; rewrite E; simpl.
  - intros Hrest.
    destruct (IH _ _ Hrest) as (-> & done_ & p & rest & self1 & -> & Hdone & Hno & Hp).
    split; [done|]. exists (path_str :: done_), p, rest, self1.
    split; [done|]. simpl. rewrite E. simpl. split; [done|]. split; [|done].
    destruct (add_path_mark _ _ _ _ _ E) as (evs1 & m & Hev1 & Hno1 & _).
    destruct (add_paths_marks _ _ _ _ _ Hdone) as (evs2 & Hev2 & Hno2 & _).
    rewrite Hev1 in Hev2. rewrite <- app_assoc in Hev2.
    rewrite (new_events_app _ _ _ Hev2). by intros [?|?]%elem_of_app.
  - intros [= <-]. split; [done|]. exists [], path_str, paths, self.
    split; [done|]. split; [done|]. split; [|done].
    unfold new_events. rewrite drop_all. by intros ?%elem_of_nil.
Qed.




(** * Resolving the paths of a batch *)

(** An entry that is neither empty, nor a local file URL, nor relative is
    skipped with a record of level [ERROR]; no [WARNING] is logged for it. *)
Lemma malformed_path_not_warned :
  ¬ ∃ self1 msg,
      add_path qurl_sample fs_sample "http://example.com/proj" model_empty = Returned self1 ∧
      Log WARNING msg ∈ events self1.
Proof.
  intros (self1 & msg & Hret & Hin). vm_compute in Hret.
  injection Hret as <-. simpl in Hin.
  apply elem_of_cons in Hin as [Hin|Hin]; [discriminate Hin|].
  by apply elem_of_nil in Hin.
Qed.

(** C8 (amended): for each string of a batch, [addProjectsByPaths] adds the
    local path of a local file URL, adds a string without a scheme as it is,
    skips an empty string with a record of level [WARNING] and skips any
    other string with a record of level [ERROR]; a skipped string constructs
    no item and the rest of the batch is gone through after it, as it is
    after an added string whose [addListItem] has returned. *)
Theorem add_path_resolves qurl fs path_str paths self :
  if isEmpty (qurl path_str) then
    ∃ self1,
      add_path qurl fs path_str self = Returned self1 ∧
      add_paths qurl fs (path_str :: paths) self = add_paths qurl fs paths self1 ∧
      skipped WARNING ("Given path is empty: " +:+ path_str) self self1
  else if isLocalFile (qurl path_str) then
    added qurl fs (toLocalFile (qurl path_str)) path_str paths self
  else if isRelative (qurl path_str) then
    added qurl fs path_str path_str paths self
  else
    ∃ self1,
      add_path qurl fs path_str self = Returned self1 ∧
      add_paths qurl fs (path_str :: paths) self = add_paths qurl fs paths self1 ∧
      skipped ERROR ("Incorrect path: " +:+ path_str) self self1.
Proof.
  assert (∀ p,
            add_path qurl fs path_str self =
              (r ← addListItem fs p None None self; Returned r.2) →
            added qurl fs p path_str paths self) as Hadded.
  { intros p Hp. unfold added. simpl. rewrite Hp.
    destruct (addListItem_plain_cases fs p None self) as [(u & s1 & ->) | [-> _]]; done. }
  simpl. unfold add_path in *.
  destruct (isEmpty (qurl path_str)).
  { eexists. split; [done|]. split; [done|]. by repeat split. }
  destruct (isLocalFile (qurl path_str)); [by apply Hadded|].
  destruct (isRelative (qurl path_str)); [by apply Hadded|].
  eexists. split; [done|]. split; [done|]. by repeat split.
Qed.

(** * Access and removal by index *)

Lemma in_range_spec index self :
  in_range index self = true ↔ (0 ≤ index < Z.of_nat (length (projects self)))%Z.
Proof. unfold in_range. apply bool_decide_eq_true. Qed.

(** C7: with an index outside [0, len(self.projects)), negative ones
    included, [get] returns nothing and [removeProject] does nothing at all.
    With an index inside, [get] returns the item there and [removeProject]
    takes it out of the list between [beginRemoveRows] and [endRemoveRows],
    starts a save exactly when the item's project had been constructed or
    the item came from the settings at startup, and schedules the item's
    deletion. *)
Theorem get_removeProject_by_index index self :
  (¬ (0 ≤ index < Z.of_nat (length (projects self)))%Z →
   get index self = None ∧ removeProject index self = self) ∧
  ((0 ≤ index < Z.of_nat (length (projects self)))%Z →
   ∃ u,
     projects self !! Z.to_nat index = Some u ∧
     get index self = Some u ∧
     removeProject index self =
     {| projects := take (Z.to_nat index) (projects self)
                    ++ drop (S (Z.to_nat index)) (projects self);
        heap := heap self;
        events :=
          events self
          ++ [BeginRemoveRows index index; EndRemoveRows]
          ++ (if bool_decide (is_Some (project u)) || fromStartup u
              then [PoolStartSave] else [])
          ++ [DeleteLater (ident u)];
        constructed := constructed self |}).
Proof.
  split.
  - intros Hout. unfold get, removeProject.
    destruct (in_range index self) eqn:E; [|done].
    by apply in_range_spec in E.
  - intros Hin. unfold get, removeProject.
    rewrite (proj2 (in_range_spec index self) Hin).
    destruct (lookup_lt_is_Some_2 (projects self) (Z.to_nat index)) as [u Hu]; [lia|].
    exists u. rewrite Hu. split; [done|]. split; [done|].
    unfold saveInSettings, emit. rewrite delete_take_drop.
    destruct (bool_decide (is_Some (project u)) || fromStartup u); simpl;
      by rewrite <- ?app_assoc.
Qed.

Lemma get_removeProject_by_index_witness :
  (¬ (0 ≤ -1 < Z.of_nat (length (projects model_ABC)))%Z ∧
   (0 ≤ 1 < Z.of_nat (length (projects model_ABC)))%Z) ∧
  get (-1) model_ABC = None ∧ removeProject (-1) model_ABC = model_ABC ∧
  get 3 model_ABC = None ∧ removeProject 3 model_ABC = model_ABC ∧
  get 1 model_ABC = Some item_B ∧
  removeProject 1 model_ABC =
  {| projects := [item_A; item_C]; heap := ∅;
     events := [BeginRemoveRows 1 1; EndRemoveRows; DeleteLater 1];
     constructed := 3 |} ∧
  events (removeProject 0 model_ABC) =
  [BeginRemoveRows 0 0; EndRemoveRows; PoolStartSave; DeleteLater 0].
Proof.
  assert (¬ (0 ≤ -1 < Z.of_nat (length (projects model_ABC)))%Z) as Hneg by (simpl; lia).
  assert (¬ (0 ≤ 3 < Z.of_nat (length (projects model_ABC)))%Z) as Hbig by (simpl; lia).
  assert (0 ≤ 1 < Z.of_nat (length (projects model_ABC)))%Z as Hone by (simpl; lia).
  assert (0 ≤ 0 < Z.of_nat (length (projects model_ABC)))%Z as Hzero by (simpl; lia).
  split; [by split|].
  destruct (proj1 (get_removeProject_by_index (-1) model_ABC) Hneg) as [Hg1 Hr1].
  destruct (proj1 (get_removeProject_by_index 3 model_ABC) Hbig) as [Hg3 Hr3].
  destruct (proj2 (get_removeProject_by_index 1 model_ABC) Hone) as (u & Hu & Hg & Hr).
  destruct (proj2 (get_removeProject_by_index 0 model_ABC) Hzero) as (u0 & Hu0 & _ & Hr0).
  vm_compute in Hu. injection Hu as <-.
  vm_compute in Hu0. injection Hu0 as <-.
  split; [exact Hg1|]. split; [exact Hr1|]. split; [exact Hg3|]. split; [exact Hr3|].
  split; [exact Hg|]. split; [exact Hr|].
  rewrite Hr0. reflexivity.
Defined.

(** * The caller's keyword arguments *)

Lemma set_parent_lookup_ne h kwargs k :
  k ≠ KStr "parent" → set_parent h kwargs !! k = kwargs !! k.
Proof.
  intros Hk. unfold set_parent.
  destruct (kwargs !! KStr "parent") as [v|]; [destruct (truthy h v)|];
    by rewrite ?lookup_insert_ne.
Qed.

Lemma addListItem_heap_duplicate fs path list_item_kwargs on_initialized self u self' idx :
  duplicate_index fs self path = Returned idx →
  (idx > -1)%Z →
  addListItem fs path list_item_kwargs on_initialized self = Returned (u, self') →
  heap self' = heap self.
Proof.
  intros Hidx Hdup. unfold addListItem.
  destruct (copy_kwargs (heap self) list_item_kwargs) as [kwargs| |]; simpl; [|done..].
  rewrite Hidx. simpl. rewrite bool_decide_true by done.
  destruct (proj_params _ _) as [[params len]| |]; simpl; [|done..].
  destruct (projects self !! _) as [existing|]; [|done].
  destruct (negb (len =? 0)); by intros [= <- <-].
Qed.

Lemma insert_path_shape path h kwargs :
  project_args_shape h kwargs ≠ ArgsOther →
  insert_path path h (set_parent h kwargs) =
  match project_args_shape h kwargs with
  | ArgsList a (x :: xs) =>
      Returned (<[a := PyList (PyStr path :: xs)]> h, set_parent h kwargs)
  | _ =>
      Returned (<[fresh (dom h) := PyList [PyStr path]]> h,
                <[KStr "project_args" := PyRef (fresh (dom h))]> (set_parent h kwargs))
  end.
Proof.
  unfold project_args_shape, insert_path.
  rewrite set_parent_lookup_ne by done.
  destruct (kwargs !! KStr "project_args") as [[| | | | |a]|]; try done.
  simpl. destruct (h !! a) as [[xs|]|]; try done.
  by destruct xs.
Qed.

(** With a list under ['project_args'], list and dict are different
    objects; a fresh location holds no object yet. *)
Lemma fresh_loc_None (h : gmap loc pyobj) : h !! fresh (dom h) = None.
Proof. apply not_elem_of_dom, is_fresh. Qed.

(** The caller's list is left alone when a duplicate is found, although the
    caller gave a list that is not empty. *)
Lemma duplicate_add_keeps_project_args :
  ∃ u self',
    addListItem fs_sample "/home/user/broken" (Some 0) None model_cli = Returned (u, self') ∧
    heap model_cli !! 4 = Some (PyList [PyStr "old/path"; PyBool true]) ∧
    heap self' !! 4 = Some (PyList [PyStr "old/path"; PyBool true]).
Proof. eexists _, _. split; [by vm_compute|]. split; by vm_compute. Qed.

(** C10 (amended): [addListItem] works on a copy of the caller's dict of
    keyword arguments, so that dict keeps its keys and its values. When no
    duplicate is found and the caller has put a list that is not empty under
    ['project_args'], this very list is changed in place: its first element
    becomes the path, its other elements stay, and it is the list the new
    item is constructed with. When no duplicate is found and the key is
    absent or its list empty, a new list holding just the path is made for
    the item and no object of the caller changes. When a duplicate is found
    nothing of the caller's changes. *)
Theorem addListItem_kwargs_frame fs path l d on_initialized self :
  heap self !! l = Some (PyDict d) →
  project_args_shape (heap self) d ≠ ArgsOther →
  (∀ u self',
     addListItem fs path (Some l) on_initialized self = Returned (u, self') →
     heap self' !! l = Some (PyDict d)) ∧
  (∀ idx,
     duplicate_index fs self path = Returned idx →
     (idx > -1)%Z →
     ∀ u self',
       addListItem fs path (Some l) on_initialized self = Returned (u, self') →
       heap self' = heap self) ∧
  (duplicate_index fs self path = Returned (-1)%Z →
   ∃ u self' kwargs',
     addListItem fs path (Some l) on_initialized self = Returned (u, self') ∧
     Construct (ident u) kwargs' ∈ events self' ∧
     match project_args_shape (heap self) d with
     | ArgsList a (x :: xs) =>
         heap self' = <[a := PyList (PyStr path :: xs)]> (heap self) ∧
         kwargs' !! KStr "project_args" = Some (PyRef a)
     | _ =>
         heap self' = <[fresh (dom (heap self)) := PyList [PyStr path]]> (heap self) ∧
         heap self !! fresh (dom (heap self)) = None ∧
         kwargs' !! KStr "project_args" = Some (PyRef (fresh (dom (heap self))))
     end).
Proof.
  intros Hl Hshape.
  assert (duplicate_index fs self path = Returned (-1)%Z →
          ∃ u self' kwargs',
            addListItem fs path (Some l) on_initialized self = Returned (u, self') ∧
            Construct (ident u) kwargs' ∈ events self' ∧
            match project_args_shape (heap self) d with
            | ArgsList a (x :: xs) =>
                heap self' = <[a := PyList (PyStr path :: xs)]> (heap self) ∧
                kwargs' !! KStr "project_args" = Some (PyRef a)
            | _ =>
                heap self' = <[fresh (dom (heap self)) := PyList [PyStr path]]> (heap self) ∧
                heap self !! fresh (dom (heap self)) = None ∧
                kwargs' !! KStr "project_args" = Some (PyRef (fresh (dom (heap self))))
            end) as Hnew.
  { intros Hdup.
    assert (copy_kwargs (heap self) (Some l) = Returned d) as Hcopy
      by (unfold copy_kwargs; by rewrite Hl).
    pose proof (insert_path_shape path (heap self) d Hshape) as Hins.
    assert (∀ h kwargs',
              insert_path path (heap self) (set_parent (heap self) d) = Returned (h, kwargs') →
              ∃ u self',
                addListItem fs path (Some l) on_initialized self = Returned (u, self') ∧
                Construct (ident u) kwargs' ∈ events self' ∧ heap self' = h) as Hrun.
    { intros h kwargs' E. eexists _, _. split.
      - by apply (addListItem_new _ _ _ _ _ _ _ _ Hdup Hcopy E).
      - simpl. split; [|done]. apply elem_of_app. right. by left. }
    destruct (project_args_shape (heap self) d) as [|a [|x xs]|] eqn:Eshape; [| | |done].
    - destruct (Hrun _ _ Hins) as (u & self' & Hret & Hev & <-).
      exists u, self'. eexists. split; [done|]. split; [done|].
      split; [done|]. split; [apply fresh_loc_None | apply lookup_insert_eq].
    - destruct (Hrun _ _ Hins) as (u & self' & Hret & Hev & <-).
      exists u, self'. eexists. split; [done|]. split; [done|].
      split; [done|]. split; [apply fresh_loc_None | apply lookup_insert_eq].
    - destruct (Hrun _ _ Hins) as (u & self' & Hret & Hev & <-).
      exists u, self'. eexists. split; [done|]. split; [done|]. split; [done|].
      rewrite set_parent_lookup_ne by done.
      unfold project_args_shape in Eshape.
      destruct (d !! KStr "project_args") as [[| | | | |a']|]; try done.
      destruct (heap self !! a') as [[]|]; by simplify_eq. }
  split; [|split; [|done]].
  - intros u self' Hret.
    assert (copy_kwargs (heap self) (Some l) = Returned d) as Hcopy
      by (unfold copy_kwargs; by rewrite Hl).
    destruct (duplicate_index_cases fs self path) as [[idx Hidx] | [Hraised _]].
    2:{ rewrite (addListItem_raises _ _ _ on_initialized _ _ _ Hcopy Hraised) in Hret.
        done. }
    destruct (duplicate_index_range _ _ _ _ Hidx) as [-> | Hr].
    + destruct (Hnew Hidx) as (u' & self'' & kwargs' & Hret' & _ & Hheap).
      rewrite Hret in Hret'. injection Hret' as -> <-.
      destruct (project_args_shape (heap self) d) as [|a [|x xs]|] eqn:Eshape; [| | |done].
      * destruct Hheap as (-> & Hfresh & _). rewrite lookup_insert_ne; [done|].
        intros E. rewrite E in Hfresh. congruence.
      * destruct Hheap as (-> & Hfresh & _). rewrite lookup_insert_ne; [done|].
        intros E. rewrite E in Hfresh. congruence.
      * destruct Hheap as (-> & _). rewrite lookup_insert_ne; [done|].
        intros ->. unfold project_args_shape in Eshape.
        destruct (d !! KStr "project_args") as [[| | | | |a']|]; try done.
        destruct (heap self !! a') as [[]|] eqn:Ea; simplify_eq.
    + assert (idx > -1)%Z as Hgt by lia.
      by rewrite (addListItem_heap_duplicate _ _ _ _ _ _ _ _ Hidx Hgt Hret).
  - intros idx Hidx Hdup u self'. by eapply addListItem_heap_duplicate.
Qed.

Lemma addListItem_kwargs_frame_witness :
  (heap model_cli !! 0 =
     Some (PyDict (list_to_map [(KStr "project_kwargs", PyRef 1);
                                (KStr "project_args", PyRef 4)])) ∧
   duplicate_index fs_sample model_cli "/home/user/new" = Returned (-1)%Z) ∧
  ∃ u self',
    addListItem fs_sample "/home/user/new" (Some 0) None model_cli = Returned (u, self') ∧
    heap self' !! 4 = Some (PyList [PyStr "/home/user/new"; PyBool true]) ∧
    heap self' !! 0 = heap model_cli !! 0.
Proof.
  assert (heap model_cli !! 0 =
            Some (PyDict (list_to_map [(KStr "project_kwargs", PyRef 1);
                                       (KStr "project_args", PyRef 4)]))) as H0
    by (by vm_compute).
  assert (duplicate_index fs_sample model_cli "/home/user/new" = Returned (-1)%Z) as Hdup
    by reflexivity.
  split; [by split|].
  destruct (addListItem_kwargs_frame fs_sample "/home/user/new" 0 _ None model_cli H0)
    as (Hdict & _ & Hnew).
  { vm_compute. discriminate. }
  destruct (Hnew Hdup) as (u & self' & kwargs' & Hret & _ & Hheap).
  exists u, self'. split; [exact Hret|]. split.
  - assert (project_args_shape (heap model_cli)
              (list_to_map [(KStr "project_kwargs", PyRef 1); (KStr "project_args", PyRef 4)])
            = ArgsList 4 [PyStr "old/path"; PyBool true]) as Eshape by (by vm_compute).
    rewrite Eshape in Hheap. destruct Hheap as [Hheap _].
    rewrite Hheap. by vm_compute.
  - exact (eq_trans (Hdict u self' Hret) (eq_sym H0)).
Defined.

(** * Reading the list by index *)

(** The result of [removeProject], inside and outside the list. *)
Lemma get_removeProject_by_index_aux index self :
  (¬ (0 ≤ index < Z.of_nat (length (projects self)))%Z →
   get index self = None ∧ removeProject index self = self) ∧
  ((0 ≤ index < Z.of_nat (length (projects self)))%Z →
   ∃ u,
     projects self !! Z.to_nat index = Some u ∧
     get index self = Some u ∧
     removeProject index self =
     {| projects := take (Z.to_nat index) (projects self)
                    ++ drop (S (Z.to_nat index)) (projects self);
        heap := heap self;
        events :=
          events self
          ++ [BeginRemoveRows index index; EndRemoveRows]
          ++ (if bool_decide (is_Some (project u)) || fromStartup u
              then [PoolStartSave] else [])
          ++ [DeleteLater (ident u)];
        constructed := constructed self |}).
Proof.
  split.
  - intros Hout. unfold get, removeProject.
    destruct (in_range index self) eqn:E; [|done].
    by apply in_range_spec in E.
  - intros Hin. unfold get, removeProject.
    rewrite (proj2 (in_range_spec index self) Hin).
    destruct (lookup_lt_is_Some_2 (projects self) (Z.to_nat index)) as [u Hu]; [lia|].
    exists u. rewrite Hu. split; [done|]. split; [done|].
    unfold saveInSettings, emit. rewrite delete_take_drop.
    destruct (bool_decide (is_Some (project u)) || fromStartup u); simpl;
      by rewrite <- ?app_assoc.
Qed.


Lemma get_Some index self u :
  get index self = Some u ↔
  (0 ≤ index)%Z ∧ projects self !! Z.to_nat index = Some u.
Proof.
  unfold get, in_range. case_bool_decide as H.
  - split; [intros Hu; split; [lia | done] | by intros [_ ?]].
  - split; [done|]. intros [Hpos Hu]. apply lookup_lt_Some in Hu. lia.
Qed.

Lemma get_lookup index self :
  get index self = if bool_decide (0 ≤ index)%Z then projects self !! Z.to_nat index else None.
Proof.
  unfold get, in_range. repeat case_bool_decide; try done; try lia.
  symmetry. apply lookup_ge_None. lia.
Qed.

(** [data] with the display role (or no role) and [get] return the same
    item for a row inside the list. They part outside: for a row below zero
    down to [-len], as the -1 of an invalid [QModelIndex], [data] returns the
    item counted from the end where [get] returns nothing, and for any other
    row [data] raises [IndexError] where [get] returns nothing. With another
    role [data] returns nothing and never raises. *)
Theorem data_and_get row role self :
  (∀ r, data row (Some (OtherRole r)) self = Returned None) ∧
  (role = None ∨ role = Some DisplayRole →
   ((0 ≤ row < Z.of_nat (rowCount self))%Z →
    ∃ u, get row self = Some u ∧ data row role self = Returned (Some u)) ∧
   ((- Z.of_nat (rowCount self) ≤ row < 0)%Z →
    get row self = None ∧
    ∃ u, projects self !! Z.to_nat (Z.of_nat (rowCount self) + row) = Some u ∧
         data row role self = Returned (Some u)) ∧
   (¬ (- Z.of_nat (rowCount self) ≤ row < Z.of_nat (rowCount self))%Z →
    get row self = None ∧ data row role self = Raised "IndexError")).
Proof.
  split; [done|]. intros Hrole.
  assert (data row role self =
          match py_index (projects self) row with
          | Some item => Returned (Some item)
          | None => Raised "IndexError"
          end) as -> by (by destruct Hrole as [-> | ->]).
  unfold rowCount, py_index. split; [|split].
  - intros Hin. rewrite bool_decide_true by done.
    destruct (lookup_lt_is_Some_2 (projects self) (Z.to_nat row)) as [u Hu]; [lia|].
    exists u. rewrite Hu. split; [|done]. apply get_Some. split; [lia | done].
  - intros Hneg. rewrite bool_decide_false by lia. rewrite bool_decide_true by done.
    split; [rewrite get_lookup; by rewrite bool_decide_false by lia|].
    destruct (lookup_lt_is_Some_2 (projects self)
                (Z.to_nat (Z.of_nat (length (projects self)) + row))) as [u Hu]; [lia|].
    exists u. by rewrite Hu.
  - intros Hout. rewrite !bool_decide_false by lia. split; [|done].
    unfold get, in_range. by rewrite bool_decide_false by lia.
Qed.

Lemma data_and_get_witness :
  (0 ≤ 1 < Z.of_nat (rowCount model_ABC))%Z ∧
  (- Z.of_nat (rowCount model_ABC) ≤ -1 < 0)%Z ∧
  get 1 model_ABC = Some item_B ∧ data 1 None model_ABC = Returned (Some item_B) ∧
  get (-1) model_ABC = None ∧ data (-1) (Some DisplayRole) model_ABC = Returned (Some item_C) ∧
  get 3 model_ABC = None ∧ data 3 None model_ABC = Raised "IndexError" ∧
  data (-1) None model_empty = Raised "IndexError".
Proof.
  assert (0 ≤ 1 < Z.of_nat (rowCount model_ABC))%Z as H1 by (by vm_compute).
  assert (- Z.of_nat (rowCount model_ABC) ≤ -1 < 0)%Z as H2 by (by vm_compute).
  split; [exact H1|]. split; [exact H2|].
  destruct (data_and_get 1 None model_ABC) as [_ Hd]. destruct (Hd (or_introl eq_refl))
    as (Hin & _ & _). destruct (Hin H1) as (u & Hg & Hdata).
  assert (u = item_B) as ->
    by (pose proof Hg as Hg2; vm_compute in Hg2; injection Hg2 as <-; reflexivity).
  split; [exact Hg|]. split; [exact Hdata|].
  destruct (data_and_get (-1) (Some DisplayRole) model_ABC) as [_ Hd'].
  destruct (Hd' (or_intror eq_refl)) as (_ & Hneg & _).
  destruct (Hneg H2) as (Hg' & u' & Hu' & Hdata').
  assert (u' = item_C) as ->
    by (pose proof Hu' as Hu2; vm_compute in Hu2; injection Hu2 as <-; reflexivity).
  split; [exact Hg'|]. split; [exact Hdata'|].
  destruct (data_and_get 3 None model_ABC) as [_ Hd3].
  destruct (Hd3 (or_introl eq_refl)) as (_ & _ & Hout).
  destruct Hout as [Hg3 Hdata3]; [unfold rowCount; simpl; lia|].
  split; [exact Hg3|]. split; [exact Hdata3|].
  destruct (data_and_get (-1) None model_empty) as [_ Hde].
  destruct (Hde (or_introl eq_refl)) as (_ & _ & Hout).
  apply Hout. unfold rowCount. simpl. lia.
Defined.

(** After [removeProject] of a row inside the list there is one row less,
    the rows before it are where they were and every later row has moved up
    by one: [get j] now returns what [get (j+1)] returned. *)
Theorem removeProject_shifts index self :
  (0 ≤ index < Z.of_nat (rowCount self))%Z →
  rowCount (removeProject index self) + 1 = rowCount self ∧
  ∀ j, get j (removeProject index self) =
       if bool_decide (j < index)%Z then get j self else get (j + 1) self.
Proof.
  intros Hin. unfold rowCount in *.
  destruct (proj2 (get_removeProject_by_index_aux index self) Hin) as (u & Hu & _ & ->).
  cbn [projects]. rewrite <- delete_take_drop. split.
  - rewrite length_delete by eauto. apply lookup_lt_Some in Hu. lia.
  - intros j. rewrite !get_lookup. cbn [projects].
    destruct (decide (0 ≤ j)%Z) as [Hj|Hj].
    + rewrite (bool_decide_true (0 ≤ j)%Z) by done.
      destruct (decide (j < index)%Z) as [Hlt|Hge].
      * rewrite (bool_decide_true (j < index)%Z) by done.
        by rewrite list_lookup_delete_lt by lia.
      * rewrite (bool_decide_false (j < index)%Z) by done.
        rewrite (bool_decide_true (0 ≤ j + 1)%Z) by lia.
        rewrite list_lookup_delete_ge by lia. f_equal. lia.
    + rewrite (bool_decide_false (0 ≤ j)%Z) by done.
      by rewrite (bool_decide_true (j < index)%Z) by lia.
Qed.

Lemma removeProject_shifts_witness :
  (0 ≤ 1 < Z.of_nat (rowCount model_ABC))%Z ∧
  rowCount (removeProject 1 model_ABC) = 2 ∧
  get 0 (removeProject 1 model_ABC) = Some item_A ∧
  get 1 (removeProject 1 model_ABC) = Some item_C ∧
  get 2 (removeProject 1 model_ABC) = None.
Proof.
  assert (0 ≤ 1 < Z.of_nat (rowCount model_ABC))%Z as H1 by (by vm_compute).
  split; [exact H1|].
  destruct (removeProject_shifts 1 model_ABC H1) as [Hrows Hget].
  split; [change (rowCount model_ABC) with 3 in Hrows; lia|].
  split; [exact (Hget 0%Z)|]. split; [exact (Hget 1%Z) | exact (Hget 2%Z)].
Defined.

(** * What a call of [addListItem] has done *)

(** A call that returned has read its keyword arguments, has found the
    duplicate index and has gone through one of the two branches to its
    end. *)
Lemma addListItem_inv fs path list_item_kwargs on_initialized self u self' :
  addListItem fs path list_item_kwargs on_initialized self = Returned (u, self') →
  ∃ kwargs idx,
    copy_kwargs (heap self) list_item_kwargs = Returned kwargs ∧
    duplicate_index fs self path = Returned idx ∧
    (((idx > -1)%Z ∧
      ∃ params len, proj_params (heap self) kwargs = Returned (params, len)) ∨
     (idx = (-1)%Z ∧
      ∃ h kwargs',
        insert_path path (heap self) (set_parent (heap self) kwargs) = Returned (h, kwargs'))).
Proof.
  unfold addListItem.
  destruct (copy_kwargs (heap self) list_item_kwargs) as [kwargs| |] eqn:Hcopy;
    simpl; [|done..].
  destruct (duplicate_index fs self path) as [idx| |] eqn:Hidx; simpl; [|done..].
  intros Hret. exists kwargs, idx. split; [done|]. split; [done|].
  destruct (duplicate_index_range _ _ _ _ Hidx) as [-> | Hr].
  - right. split; [done|]. rewrite bool_decide_false in Hret by lia.
    destruct (insert_path _ _ _) as [[h kwargs']| |]; [|done..]. by exists h, kwargs'.
  - left. split; [lia|]. rewrite bool_decide_true in Hret by lia.
    rewrite proj_params_set_parent in Hret.
    destruct (proj_params _ _) as [[params len]| |]; [|done..]. by exists params, len.
Qed.

(** The item a call returns is in the list afterwards, at the tail when the
    call has constructed it and otherwise at the index of the duplicate
    found (the one sent with [goToProject]); every row of the list before
    is where it was, and the number of rows has grown by one or not at
    all. *)
Theorem addListItem_get fs path list_item_kwargs on_initialized self u self' :
  addListItem fs path list_item_kwargs on_initialized self = Returned (u, self') →
  ∃ idx,
    duplicate_index fs self path = Returned idx ∧
    get (if bool_decide (idx = (-1)%Z) then Z.of_nat (rowCount self) else idx) self' = Some u ∧
    rowCount self' = rowCount self + (if bool_decide (idx = (-1)%Z) then 1 else 0) ∧
    ∀ j, (0 ≤ j < Z.of_nat (rowCount self))%Z → get j self' = get j self.
Proof.
  intros Hret. pose proof (addListItem_projects _ _ _ _ _ _ _ Hret) as Hproj.
  destruct (addListItem_inv _ _ _ _ _ _ _ Hret)
    as (kwargs & idx & Hcopy & Hidx & [[Hdup Hp] | [Hnone _]]);
    exists idx; (split; [done|]); rewrite Hidx in Hproj; unfold rowCount; try subst idx.
  - rewrite bool_decide_false in Hproj by (intros [= ?]; lia).
    rewrite bool_decide_false by lia. rewrite app_nil_r in Hproj. rewrite Hproj.
    destruct Hp as (params & len & Hp).
    destruct (addListItem_found _ _ _ on_initialized _ _ _ _ _ Hidx Hdup Hcopy Hp)
      as (existing & Hex & _ & Hret').
    rewrite Hret in Hret'. injection Hret' as -> _.
    split; [apply get_Some; split; [lia | by rewrite Hproj]|]. split; [lia|].
    intros j Hj. by rewrite !get_lookup, Hproj.
  - rewrite bool_decide_true in Hproj by done. rewrite bool_decide_true by done.
    split; [|split].
    + apply get_Some. split; [lia|]. rewrite Hproj, Nat2Z.id.
      by rewrite lookup_app_r, Nat.sub_diag by lia.
    + rewrite Hproj, length_app. simpl. lia.
    + intros j Hj. rewrite !get_lookup, Hproj.
      rewrite (bool_decide_true (0 ≤ j)%Z) by lia.
      by rewrite lookup_app_l by lia.
Qed.

Lemma addListItem_get_witness :
  ∃ u self',
    addListItem fs_sample "/home/user/new" None None model_ABC = Returned (u, self') ∧
    get 3 self' = Some u ∧ rowCount self' = 4 ∧ get 1 self' = Some item_B.
Proof.
  destruct (addListItem fs_sample "/home/user/new" None None model_ABC)
    as [[u self']| |] eqn:E; [|vm_compute in E; discriminate E..].
  exists u, self'. split; [reflexivity|].
  destruct (addListItem_get _ _ _ _ _ _ _ E) as (idx & Hidx & Hget & Hrows & Hold).
  assert (idx = (-1)%Z) as ->
    by (pose proof Hidx as Hi; vm_compute in Hi; injection Hi as <-; reflexivity).
  split; [exact Hget|]. split; [exact Hrows|].
  rewrite Hold; [reflexivity | by vm_compute].
Defined.

(** Removing the row that a call has just appended gives back the list as
    it was before the call, and the removal changes no object of the
    heap. *)
Theorem addListItem_then_removeProject fs path list_item_kwargs on_initialized self u self' :
  addListItem fs path list_item_kwargs on_initialized self = Returned (u, self') →
  duplicate_index fs self path = Returned (-1)%Z →
  projects (removeProject (Z.of_nat (rowCount self)) self') = projects self ∧
  heap (removeProject (Z.of_nat (rowCount self)) self') = heap self' ∧
  DeleteLater (ident u) ∈ new_events self' (removeProject (Z.of_nat (rowCount self)) self').
Proof.
  intros Hret Hdup. pose proof (addListItem_projects _ _ _ _ _ _ _ Hret) as Hproj.
  rewrite bool_decide_true in Hproj by done. unfold rowCount.
  destruct (proj2 (get_removeProject_by_index_aux (Z.of_nat (length (projects self))) self'))
    as (u' & Hu' & _ & ->).
  { rewrite Hproj, length_app. simpl. lia. }
  rewrite Nat2Z.id in *. rewrite Hproj in Hu'.
  rewrite lookup_app_r, Nat.sub_diag in Hu' by lia. injection Hu' as <-.
  cbn [projects heap]. split; [|split; [done|]].
  - rewrite Hproj. rewrite take_app_length.
    rewrite drop_ge by (rewrite length_app; simpl; lia). by rewrite app_nil_r.
  - erewrite new_events_app; [|cbn [events]; reflexivity].
    rewrite !elem_of_app. right. right. by left.
Qed.

Lemma addListItem_then_removeProject_witness :
  ∃ u self',
    addListItem fs_sample "/home/user/new" None None model_ABC = Returned (u, self') ∧
    duplicate_index fs_sample model_ABC "/home/user/new" = Returned (-1)%Z ∧
    projects (removeProject 3 self') = [item_A; item_B; item_C].
Proof.
  destruct (addListItem fs_sample "/home/user/new" None None model_ABC)
    as [[u self']| |] eqn:E; [|vm_compute in E; discriminate E..].
  exists u, self'. split; [reflexivity|].
  assert (duplicate_index fs_sample model_ABC "/home/user/new" = Returned (-1)%Z) as Hdup
    by reflexivity.
  split; [exact Hdup|].
  exact (proj1 (addListItem_then_removeProject _ _ _ _ _ _ _ E Hdup)).
Defined.

(** The effects of a call that returned, branch by branch. *)
Lemma addListItem_effects fs path list_item_kwargs on_initialized self u self' :
  addListItem fs path list_item_kwargs on_initialized self = Returned (u, self') →
  ∃ evs idx,
    events self' = events self ++ evs ∧
    duplicate_index fs self path = Returned idx ∧
    ((idx = (-1)%Z ∧
      ∃ kwargs',
        evs = Construct (ident u) kwargs'
              :: match on_initialized with
                 | Some callback => [Connect (ident u) callback]
                 | None => []
                 end
              ++ [BeginInsertRows (rowCount self) (rowCount self); EndInsertRows]) ∨
     ((idx > -1)%Z ∧
      ∃ more,
        evs = Log WARNING ("This project is already in the list: " +:+ path)
              :: more ++ [GoToProject idx] ∧
        (more = [] ∨
         ∃ v, more = [ItemLog (ident u) INFO "updating parameters from the CLI... " v;
                      Run (ident u) "save_config" [v]]))).
Proof.
  intros Hret.
  destruct (addListItem_inv _ _ _ _ _ _ _ Hret)
    as (kwargs & idx & Hcopy & Hidx & [[Hdup Hp] | [-> Hi]]).
  - destruct Hp as (params & len & Hp).
    destruct (addListItem_found _ _ _ on_initialized _ _ _ _ _ Hidx Hdup Hcopy Hp)
      as (existing & Hex & _ & Hret').
    rewrite Hret in Hret'. injection Hret' as -> ->.
    eexists _, idx. split; [cbn [events]; reflexivity|]. split; [done|].
    right. split; [done|].
    destruct (len =? 0).
    + exists []. split; [done | by left].
    + eexists. split; [done|]. right. by eexists.
  - destruct Hi as (h & kwargs' & Hi).
    rewrite (addListItem_new _ _ _ on_initialized _ _ _ _ Hidx Hcopy Hi) in Hret.
    injection Hret as <- <-.
    eexists _, (-1)%Z. split; [cbn [events]; reflexivity|]. split; [done|].
    left. split; [done|]. exists kwargs'. done.
Qed.

(** The callback [on_initialized] is connected to the item's [initialized]
    signal exactly when the call has constructed the item; when a duplicate
    is found the callback is dropped: it is connected to nothing, the item
    found included. *)
Theorem on_initialized_connected fs path list_item_kwargs on_initialized self u self' :
  addListItem fs path list_item_kwargs on_initialized self = Returned (u, self') →
  ∀ item callback,
    Connect item callback ∈ new_events self self' ↔
    duplicate_index fs self path = Returned (-1)%Z ∧
    on_initialized = Some callback ∧ item = ident u.
Proof.
  intros Hret item callback.
  destruct (addListItem_effects _ _ _ _ _ _ _ Hret) as (evs & idx & Hev & Hidx & Hcases).
  rewrite (new_events_app _ _ _ Hev), Hidx.
  destruct Hcases as [(-> & kwargs' & ->) | (Hdup & more & -> & Hmore)].
  - destruct on_initialized as [c|]; simpl.
    + split.
      * intros H. repeat (apply elem_of_cons in H as [H|H]; [try discriminate H|]).
        -- by injection H as -> ->.
        -- by apply elem_of_nil in H.
      * intros (_ & [= ->] & ->). right. by left.
    + split; [not_in_list | by intros (_ & ? & _)].
  - split; [|intros [[= ?] _]; lia].
    destruct Hmore as [-> | (v & ->)]; not_in_list.
Qed.

Lemma on_initialized_connected_witness :
  ∃ u self' v self'',
    addListItem fs_sample "/home/user/new" None (Some 7) model_ABC = Returned (u, self') ∧
    Connect (ident u) 7 ∈ new_events model_ABC self' ∧
    addListItem fs_sample "/home/user/link_to_A" None (Some 7) model_ABC
      = Returned (v, self'') ∧
    ∀ item callback, Connect item callback ∉ new_events model_ABC self''.
Proof.
  destruct (addListItem fs_sample "/home/user/new" None (Some 7) model_ABC)
    as [[u self']| |] eqn:E; [|vm_compute in E; discriminate E..].
  destruct (addListItem fs_sample "/home/user/link_to_A" None (Some 7) model_ABC)
    as [[v self'']| |] eqn:E'; [|vm_compute in E'; discriminate E'..].
  exists u, self', v, self''. split; [reflexivity|]. split.
  - apply (on_initialized_connected _ _ _ _ _ _ _ E). split; [reflexivity | done].
  - split; [reflexivity|]. intros item callback Hin.
    apply (on_initialized_connected _ _ _ _ _ _ _ E') in Hin as [Hdup _].
    vm_compute in Hdup. discriminate Hdup.
Defined.

(** Whatever the keyword arguments and the callback, a call of
    [addListItem] that returns has started no save, removed no row and
    scheduled no deletion; saving is left to the caller. *)
Theorem addListItem_leaves_saving fs path list_item_kwargs on_initialized self u self' :
  addListItem fs path list_item_kwargs on_initialized self = Returned (u, self') →
  (PoolStartSave ∉ new_events self self') ∧
  (∀ first last, BeginRemoveRows first last ∉ new_events self self') ∧
  (∀ item, DeleteLater item ∉ new_events self self').
Proof.
  intros Hret.
  destruct (addListItem_effects _ _ _ _ _ _ _ Hret) as (evs & idx & Hev & _ & Hcases).
  rewrite (new_events_app _ _ _ Hev).
  destruct Hcases as [(Hdup & kwargs' & ->) | (Hdup & more & -> & [-> | (v & ->)])];
    try destruct on_initialized;
    (split; [not_in_list | split; intros; not_in_list]).
Qed.

Lemma addListItem_leaves_saving_witness :
  ∃ u self',
    addListItem fs_sample "/home/user/link_to_A" (Some 0) None model_cli = Returned (u, self') ∧
    PoolStartSave ∉ new_events model_cli self'.
Proof.
  destruct (addListItem fs_sample "/home/user/link_to_A" (Some 0) None model_cli)
    as [[u self']| |] eqn:E; [|vm_compute in E; discriminate E..].
  exists u, self'. split; [reflexivity|].
  exact (proj1 (addListItem_leaves_saving _ _ _ _ _ _ _ E)).
Defined.

(** * Notifications and the rows of a view *)

Lemma view_rows_app k : ∀ evs1 rows rows' evs2,
  length evs1 ≤ k →
  view_rows rows evs1 = Some rows' →
  view_rows rows (evs1 ++ evs2) = view_rows rows' evs2.
Proof.
  induction k as [|k IH]; intros evs1 rows rows' evs2 Hlen Hview.
  - destruct evs1; [|simpl in Hlen; lia]. by injection Hview as <-.
  - destruct evs1 as [|e evs1]; [by injection Hview as <-|].
    simpl in Hlen.
    destruct e; simpl in *;
      try (apply IH; [lia | done]); try done.
    + destruct evs1 as [|e' evs1]; [done|]. destruct e'; try done. simpl in *.
      case_bool_decide; [|done]. apply IH; [lia | done].
    + destruct evs1 as [|e' evs1]; [done|]. destruct e'; try done. simpl in *.
      case_bool_decide; [|done]. apply IH; [lia | done].
Qed.

Lemma view_follows_refl self : view_follows self self.
Proof. exists []. split; [by rewrite app_nil_r | done]. Qed.

Lemma view_follows_trans self1 self2 self3 :
  view_follows self1 self2 → view_follows self2 self3 → view_follows self1 self3.
Proof.
  intros (evs1 & Hev1 & Hv1) (evs2 & Hev2 & Hv2). exists (evs1 ++ evs2). split.
  - by rewrite Hev2, Hev1, <- app_assoc.
  - by rewrite (view_rows_app (length evs1) evs1 _ _ _ (le_n _) Hv1).
Qed.

Lemma view_follows_emit e self :
  view_rows (rowCount self) [e] = Some (rowCount self) → view_follows self (emit e self).
Proof. intros H. exists [e]. by split. Qed.

Lemma addListItem_view_follows fs path list_item_kwargs on_initialized self u self' :
  addListItem fs path list_item_kwargs on_initialized self = Returned (u, self') →
  view_follows self self'.
Proof.
  intros Hret.
  destruct (addListItem_effects _ _ _ _ _ _ _ Hret) as (evs & idx & Hev & Hidx & Hcases).
  assert (rowCount self' =
          rowCount self + (if bool_decide (idx = (-1)%Z) then 1 else 0)) as Hrows.
  { unfold rowCount. rewrite (addListItem_projects _ _ _ _ _ _ _ Hret), Hidx, length_app.
    repeat case_bool_decide; simplify_eq; done. }
  exists evs. split; [done|]. rewrite Hrows.
  destruct Hcases as [(Hdup & kwargs' & ->) | (Hdup & more & -> & Hmore)].
  - rewrite bool_decide_true by done.
    destruct on_initialized; simpl; rewrite bool_decide_true by lia;
      do 2 f_equal; lia.
  - rewrite bool_decide_false by lia. rewrite Nat.add_0_r.
    by destruct Hmore as [-> | (v & ->)].
Qed.

Lemma removeProject_view_follows index self :
  view_follows self (removeProject index self).
Proof.
  destruct (decide (0 ≤ index < Z.of_nat (length (projects self)))%Z) as [Hin|Hout].
  - destruct (proj2 (get_removeProject_by_index_aux index self) Hin)
      as (u & Hu & _ & ->).
    eexists. split; [cbn [events]; reflexivity|].
    unfold rowCount. cbn [projects]. rewrite <- delete_take_drop.
    rewrite length_delete by eauto. simpl.
    rewrite bool_decide_true by lia.
    replace (Z.to_nat (index - index + 1)) with 1 by lia.
    by destruct (bool_decide (is_Some (project u)) || fromStartup u).
  - rewrite (proj2 (proj1 (get_removeProject_by_index_aux index self) Hout)).
    apply view_follows_refl.
Qed.

Lemma add_paths_view_follows qurl fs paths : ∀ self self',
  add_paths qurl fs paths self = Returned self' → view_follows self self'.
Proof.
  induction paths as [|path_str paths IH]; intros self self'; simpl.
  - intros [= <-]. apply view_follows_refl.
  - destruct (add_path qurl fs path_str self) as [self1| |] eqn:E; simpl; [|done..].
    intros Hrest. apply (view_follows_trans _ self1); [|by apply IH].
    unfold add_path in E.
    destruct (isEmpty (qurl path_str)).
    { injection E as <-. by apply view_follows_emit. }
    destruct (isLocalFile (qurl path_str)).
    { destruct (addListItem fs _ None None self) as [[u s1]| |] eqn:Ea; [|done..].
      injection E as <-. by eapply addListItem_view_follows. }
    destruct (isRelative (qurl path_str)).
    { destruct (addListItem fs _ None None self) as [[u s1]| |] eqn:Ea; [|done..].
      injection E as <-. by eapply addListItem_view_follows. }
    injection E as <-. by apply view_follows_emit.
Qed.

Lemma run_op_view_follows qurl fs op self self' :
  run_op qurl fs op self = Returned self' → view_follows self self'.
Proof.
  destruct op as [path kw cb | paths | index]; simpl.
  - destruct (addListItem fs path kw cb self) as [[u s1]| |] eqn:E; [|done..].
    intros [= <-]. by eapply addListItem_view_follows.
  - unfold addProjectsByPaths. destruct (negb (length paths =? 0)).
    + destruct (add_paths qurl fs paths self) as [s1| |] eqn:E; [|done..].
      intros [= <-]. apply (view_follows_trans _ s1).
      * by eapply add_paths_view_follows.
      * by apply view_follows_emit.
    + intros [= <-]. by apply view_follows_emit.
  - intros [= <-]. apply removeProject_view_follows.
Qed.

(** Through any run of [addListItem], [addProjectsByPaths] and
    [removeProject] calls, the row notifications are well formed (every
    [beginInsertRows] or [beginRemoveRows] is closed at once and names rows
    that exist) and a view that counts rows by them holds as many rows as
    [self.projects] has items. *)
Theorem notifications_match_rows qurl fs ops : ∀ self self',
  run_ops qurl fs ops self = Returned self' →
  view_rows (rowCount self) (new_events self self') = Some (rowCount self').
Proof.
  assert (∀ self self', run_ops qurl fs ops self = Returned self' → view_follows self self')
    as Hfollows.
  { induction ops as [|op ops IH]; intros self self'; simpl.
    - intros [= <-]. apply view_follows_refl.
    - destruct (run_op qurl fs op self) as [s1| |] eqn:E; simpl; [|done..].
      intros Hrest. apply (view_follows_trans _ s1); [|by apply IH].
      by eapply run_op_view_follows. }
  intros self self' Hrun. destruct (Hfollows _ _ Hrun) as (evs & Hev & Hview).
  by rewrite (new_events_app _ _ _ Hev).
Qed.

Lemma notifications_match_rows_witness :
  ∃ self',
    run_ops qurl_sample fs_sample
      [OpAddProjectsByPaths ["file:///home/user/projA"; ""; "other/project"];
       OpRemoveProject 1; OpRemoveProject 7;
       OpAddListItem "/home/user/new" (Some 0) (Some 7)] model_cli = Returned self' ∧
    rowCount self' = 4 ∧
    view_rows 3 (new_events model_cli self') = Some 4.
Proof.
  destruct (run_ops qurl_sample fs_sample
              [OpAddProjectsByPaths ["file:///home/user/projA"; ""; "other/project"];
               OpRemoveProject 1; OpRemoveProject 7;
               OpAddListItem "/home/user/new" (Some 0) (Some 7)] model_cli)
    as [self'| |] eqn:E; [|vm_compute in E; discriminate E..].
  exists self'. split; [reflexivity|].
  pose proof (notifications_match_rows _ _ _ _ _ E) as Hview.
  assert (rowCount self' = 4) as Hrows
    by (vm_compute in E; injection E as <-; reflexivity).
  split; [exact Hrows|]. rewrite Hrows in Hview. exact Hview.
Defined.

(** * Batches only append *)

Lemma addListItem_constructed fs path list_item_kwargs on_initialized self u self' :
  addListItem fs path list_item_kwargs on_initialized self = Returned (u, self') →
  constructed self' =
  constructed self +
  (if bool_decide (duplicate_index fs self path = Returned (-1)%Z) then 1 else 0).
Proof.
  intros Hret.
  destruct (addListItem_inv _ _ _ _ _ _ _ Hret)
    as (kwargs & idx & Hcopy & Hidx & [[Hdup Hp] | [-> Hi]]); rewrite Hidx.
  - destruct Hp as (params & len & Hp).
    destruct (addListItem_found _ _ _ on_initialized _ _ _ _ _ Hidx Hdup Hcopy Hp)
      as (existing & _ & _ & Hret').
    rewrite Hret in Hret'. injection Hret' as _ ->. simpl.
    rewrite bool_decide_false by (intros [= ?]; lia). lia.
  - destruct Hi as (h & kwargs' & Hi).
    rewrite (addListItem_new _ _ _ on_initialized _ _ _ _ Hidx Hcopy Hi) in Hret.
    injection Hret as _ <-. cbn [constructed]. rewrite bool_decide_true by done. lia.
Qed.

Lemma add_path_grows qurl fs path_str self self' :
  add_path qurl fs path_str self = Returned self' →
  grows_by 1 self self' ∧
  (isEmpty (qurl path_str) = true ∨
   (isLocalFile (qurl path_str) = false ∧ isRelative (qurl path_str) = false) →
   projects self' = projects self).
Proof.
  assert (∀ p u s1, addListItem fs p None None self = Returned (u, s1) →
                    grows_by 1 self s1) as Hadd.
  { intros p u s1 Hret. unfold grows_by, rowCount.
    rewrite (addListItem_projects _ _ _ _ _ _ _ Hret),
      (addListItem_constructed _ _ _ _ _ _ _ Hret), length_app.
    split; [by apply prefix_app_r|]. case_bool_decide; simpl; lia. }
  assert (∀ e, grows_by 1 self (emit e self)) as Hemit.
  { intros e. unfold grows_by, rowCount. simpl. split; [done | lia]. }
  unfold add_path.
  destruct (isEmpty (qurl path_str)).
  { intros [= <-]. split; [apply Hemit | done]. }
  destruct (isLocalFile (qurl path_str)).
  { destruct (addListItem fs _ None None self) as [[u s1]| |] eqn:E; [|done..].
    intros [= <-]. split; [by eapply Hadd|]. by intros [? | [? _]]. }
  destruct (isRelative (qurl path_str)).
  { destruct (addListItem fs _ None None self) as [[u s1]| |] eqn:E; [|done..].
    intros [= <-]. split; [by eapply Hadd|]. by intros [? | [_ ?]]. }
  intros [= <-]. split; [apply Hemit | done].
Qed.

Lemma add_paths_grows qurl fs paths : ∀ self self',
  add_paths qurl fs paths self = Returned self' →
  grows_by (length paths) self self' ∧
  ((∀ path_str, path_str ∈ paths →
      isEmpty (qurl path_str) = true ∨
      (isLocalFile (qurl path_str) = false ∧ isRelative (qurl path_str) = false)) →
   projects self' = projects self).
Proof.
  induction paths as [|path_str paths IH]; intros self self'; simpl.
  - intros [= <-]. unfold grows_by. split; [|done]. split; [done | lia].
  - destruct (add_path qurl fs path_str self) as [s1| |] eqn:E; simpl; [|done..].
    intros Hrest. destruct (add_path_grows _ _ _ _ _ E) as [(Hp1 & Hr1 & Hc1) Hskip1].
    destruct (IH _ _ Hrest) as [(Hp2 & Hr2 & Hc2) Hskip2].
    split.
    + split; [by etrans|]. split; lia.
    + intros Hall. rewrite Hskip2, Hskip1; [done | |].
      * apply Hall. by left.
      * intros p Hp. apply Hall. by right.
Qed.

Lemma add_paths_skipped qurl fs paths : ∀ self,
  (∀ path_str, path_str ∈ paths →
     isEmpty (qurl path_str) = true ∨
     (isLocalFile (qurl path_str) = false ∧ isRelative (qurl path_str) = false)) →
  ∃ self', add_paths qurl fs paths self = Returned self'.
Proof.
  induction paths as [|path_str paths IH]; intros self Hall; simpl; [by eexists|].
  assert (∃ s1, add_path qurl fs path_str self = Returned s1) as [s1 ->].
  { unfold add_path.
    destruct (Hall path_str) as [-> | [-> ->]]; [by left | by eexists |].
    destruct (isEmpty (qurl path_str)); by eexists. }
  simpl. apply IH. intros p Hp. apply Hall. by right.
Qed.

(** An entry raises only when a [stat] has raised [ValueError]. *)
Lemma add_path_raised_stat qurl fs path_str self e :
  add_path qurl fs path_str self = Raised e → ∃ p, fs p = StatValueError.
Proof.
  assert (∀ p, addListItem fs p None None self ≠ Raised e ∨ ∃ q, fs q = StatValueError)
    as Hadd.
  { intros p.
    destruct (addListItem_plain_cases fs p None self) as [(u & s1 & ->) | [_ Hraised]];
      [by left | right].
    destruct (duplicate_index_cases fs self p) as [[idx Hidx] | [_ Hsame]]; [congruence|].
    destruct Hsame as (u & pr & _ & _ & Hsame).
    destruct (samefile_cases fs (Stm32pio.path pr) p)
      as [[v Hv] | [Hos | [_ [Hv | Hv]]]]; [congruence.. | |]; by eexists. }
  unfold add_path.
  destruct (isEmpty (qurl path_str)); [done|].
  destruct (isLocalFile (qurl path_str)).
  { destruct (Hadd (toLocalFile (qurl path_str))) as [Hne | ?]; [|done].
    destruct (addListItem fs _ None None self) as [[u s1]| e' |]; [done | | done].
    intros [= ->]. done. }
  destruct (isRelative (qurl path_str)); [|done].
  destruct (Hadd path_str) as [Hne | ?]; [|done].
  destruct (addListItem fs _ None None self) as [[u s1]| e' |]; [done | | done].
  intros [= ->]. done.
Qed.

(** A file system on which [stat] never raises [ValueError] lets every
    duplicate check return. *)
Lemma add_paths_returns qurl fs paths : ∀ self,
  (∀ p, fs p ≠ StatValueError) →
  ∃ self', add_paths qurl fs paths self = Returned self'.
Proof.
  intros self Hfs. revert self.
  assert (∀ p self, ∃ u s1, addListItem fs p None None self = Returned (u, s1)) as Hadd.
  { intros p self.
    destruct (addListItem_plain_cases fs p None self) as [Hret | [_ Hraised]]; [done|].
    destruct (duplicate_index_cases fs self p) as [[idx Hidx] | [_ Hsame]]; [congruence|].
    destruct Hsame as (u & pr & _ & _ & Hsame).
    destruct (samefile_cases fs (Stm32pio.path pr) p)
      as [[v Hv] | [Hos | [_ [Hv | Hv]]]]; [congruence.. | |]; by apply Hfs in Hv. }
  induction paths as [|path_str paths IH]; intros self; simpl; [by eexists|].
  assert (∃ s1, add_path qurl fs path_str self = Returned s1) as [s1 ->].
  { unfold add_path.
    destruct (isEmpty (qurl path_str)); [by eexists|].
    destruct (isLocalFile (qurl path_str)).
    { destruct (Hadd (toLocalFile (qurl path_str)) self) as (u & s1 & ->). by eexists. }
    destruct (isRelative (qurl path_str)); [|by eexists].
    destruct (Hadd path_str self) as (u & s1 & ->). by eexists. }
  simpl. apply IH.
Qed.

(** [addProjectsByPaths] only appends: whenever it returns, the list before
    is the head of the list after, at most one item per entry of the batch
    has come, each of them newly constructed, and a batch made of empty
    strings and of strings that are neither local file URLs nor relative
    leaves the list as it was. It returns for such a batch, and for any
    batch when [stat] raises no [ValueError]; the one exception that can
    leave it is the [ValueError] of a duplicate check. *)
Theorem addProjectsByPaths_appends qurl fs paths self :
  match addProjectsByPaths qurl fs paths self with
  | Returned self' =>
      projects self `prefix_of` projects self' ∧
      rowCount self' ≤ rowCount self + length paths ∧
      constructed self' + rowCount self = constructed self + rowCount self'
  | Raised e => e = "ValueError" ∧ ∃ p, fs p = StatValueError
  | Waiting => False
  end ∧
  ((∀ path_str, path_str ∈ paths →
      isEmpty (qurl path_str) = true ∨
      (isLocalFile (qurl path_str) = false ∧ isRelative (qurl path_str) = false)) →
   ∃ self', addProjectsByPaths qurl fs paths self = Returned self' ∧
            projects self' = projects self) ∧
  ((∀ p, fs p ≠ StatValueError) →
   ∃ self', addProjectsByPaths qurl fs paths self = Returned self').
Proof.
  assert ((∀ p, fs p ≠ StatValueError) →
          ∃ self', addProjectsByPaths qurl fs paths self = Returned self') as Hreturns.
  { intros Hfs. unfold addProjectsByPaths. destruct (negb (length paths =? 0)); [|by eexists].
    destruct (add_paths_returns qurl fs paths self Hfs) as [s1 ->]. by eexists. }
  split; [|split; [|done]].
  - destruct (addProjectsByPaths qurl fs paths self) as [self'| e |] eqn:E.
    + unfold addProjectsByPaths in E. destruct (negb (length paths =? 0)).
      * destruct (add_paths qurl fs paths self) as [s1| |] eqn:E1; [|done..].
        injection E as <-. by destruct (add_paths_grows _ _ _ _ _ E1) as [? _].
      * injection E as <-. unfold rowCount. simpl. split; [done | lia].
    + unfold addProjectsByPaths in E. destruct (negb (length paths =? 0)); [|done].
      destruct (add_paths qurl fs paths self) as [s1| e' |] eqn:E1; [done | | done].
      injection E as <-.
      destruct (add_paths_raised _ _ _ _ _ E1) as (-> & _ & p & _ & s1 & _ & _ & _ & Hp).
      split; [done|]. by eapply add_path_raised_stat.
    + unfold addProjectsByPaths in E. destruct (negb (length paths =? 0)); [|done].
      destruct (add_paths qurl fs paths self) as [s1| e' |] eqn:E1; [done..|].
      clear -E1. revert self E1.
      induction paths as [|p ps IH]; intros self; simpl; [done|].
      destruct (add_path_cases qurl fs p self) as [[s1 ->] | ->]; simpl; [apply IH | done].
  - intros Hall. unfold addProjectsByPaths. destruct (negb (length paths =? 0)).
    + destruct (add_paths_skipped qurl fs paths self Hall) as [s1 Hret]. rewrite Hret.
      eexists. split; [done|]. simpl.
      by apply (add_paths_grows _ _ _ _ _ Hret).
    + by eexists.
Qed.

Lemma addProjectsByPaths_appends_witness :
  (∀ path_str, path_str ∈ [""; "http://example.com/proj"] →
     isEmpty (qurl_sample path_str) = true ∨
     (isLocalFile (qurl_sample path_str) = false ∧
      isRelative (qurl_sample path_str) = false)) ∧
  ∃ self',
    addProjectsByPaths qurl_sample fs_sample [""; "http://example.com/proj"] model_ABC
      = Returned self' ∧
    projects self' = [item_A; item_B; item_C].
Proof.
  assert (∀ path_str, path_str ∈ [""; "http://example.com/proj"] →
            isEmpty (qurl_sample path_str) = true ∨
            (isLocalFile (qurl_sample path_str) = false ∧
             isRelative (qurl_sample path_str) = false)) as Hskip.
  { intros p Hp. apply elem_of_cons in Hp as [-> | Hp]; [by left|].
    apply elem_of_cons in Hp as [-> | Hp]; [by right|]. by apply elem_of_nil in Hp. }
  split; [exact Hskip|].
  destruct (addProjectsByPaths_appends qurl_sample fs_sample
              [""; "http://example.com/proj"] model_ABC)
    as (_ & Hsame & _).
  exact (Hsame Hskip).
Defined.

(** * One save after another *)

Lemma saved_store_again (p : list Settings.seg) (paths1 paths2 : list string)
    (m : gmap (list Settings.seg) Settings.value) :
  saved_store p paths2 (saved_store p paths1 m) = saved_store p paths2 m.
Proof.
  unfold saved_store at 1 3. do 2 f_equal.
  apply map_eq. intros k. destruct (decide (p `prefix_of` k)) as [Hk|Hk].
  - by rewrite !filter_below_lookup_None.
  - by rewrite !map_lookup_filter, saved_store_frame.
Qed.

(** A save that runs on the settings an earlier save has left comes to
    what it would have come to on the settings before that earlier save:
    nothing of the earlier save is left once the later one has returned, and
    saving the same list twice is saving it once. While the later save
    waits, the settings stay as the earlier one has left them. *)
Theorem later_save_wins view1 fuel1 view2 fuel2 s s1 log1 :
  _saveInSettings view1 fuel1 s = (Returned tt, s1, log1) →
  match _saveInSettings view2 fuel2 s1 with
  | (Returned _, s2, log2) => _saveInSettings view2 fuel2 s = (Returned tt, s2, log2)
  | (Waiting, s2, log2) =>
      s2 = s1 ∧ log2 = [] ∧ _saveInSettings view2 fuel2 s = (Waiting, s, [])
  | (Raised _, _, _) => False
  end.
Proof.
  intros H1.
  destruct (wait_loaded view1 fuel1 0) as [t1|] eqn:W1.
  - rewrite (save_returns _ _ _ _ W1) in H1. injection H1 as <- _.
    destruct (wait_loaded view2 fuel2 0) as [t2|] eqn:W2.
    + rewrite !(save_returns _ _ _ _ W2). cbn [Settings.store Settings.stack].
      by rewrite saved_store_again.
    + unfold _saveInSettings. by rewrite W2.
  - unfold _saveInSettings in H1. by rewrite W1 in H1.
Qed.

Lemma later_save_wins_witness :
  ∃ s1 log1 s2 log2,
    _saveInSettings (λ _, [item_A; item_B; item_C]) 1 stale_settings
      = (Returned tt, s1, log1) ∧
    _saveInSettings (λ _, [item_C]) 1 s1 = (Returned tt, s2, log2) ∧
    _saveInSettings (λ _, [item_C]) 1 stale_settings = (Returned tt, s2, log2) ∧
    Settings.read_array (Settings.store s2) [Settings.Name "app"; Settings.Name "projects"]
      "path" = [Some (Settings.VStr "/home/user/projC")].
Proof.
  destruct (_saveInSettings (λ _, [item_A; item_B; item_C]) 1 stale_settings)
    as [[[[]| |] s1] log1] eqn:E1; [|vm_compute in E1; discriminate E1..].
  pose proof (later_save_wins _ _ (λ _, [item_C]) 1 _ _ _ E1) as Hwins.
  destruct (_saveInSettings (λ _, [item_C]) 1 s1) as [[[[]| |] s2] log2] eqn:E2.
  - exists s1, log1, s2, log2. split; [reflexivity|]. split; [exact E2|].
    split; [exact Hwins|].
    vm_compute in Hwins. injection Hwins as <- _. reflexivity.
  - destruct Hwins.
  - destruct Hwins as (_ & _ & Hwait). vm_compute in Hwait. discriminate Hwait.
Defined.

(** * What a new item is constructed with *)




(** * The command line application *)

Section app_facts.
Import App AppMain.
Variable lib : Lib.

Lemma calls_app tr1 tr2 : calls (tr1 ++ tr2) = calls tr1 ++ calls tr2.
Proof. apply omap_app. Qed.

Lemma split_one {A} (e x : A) pre post :
  [e] = pre ++ x :: post → pre = [] ∧ post = [] ∧ e = x.
Proof.
  destruct pre as [|y pre]; simpl.
  - by intros [= -> <-].
  - intros [= _ H]. by destruct pre.
Qed.

Lemma split_after_prefix (tr0 evs pre : list AppEvent) c post :
  (∀ c', Call c' ∉ tr0) →
  tr0 ++ evs = pre ++ Call c :: post →
  ∃ pre', pre = tr0 ++ pre' ∧ evs = pre' ++ Call c :: post.
Proof.
  revert pre. induction tr0 as [|x tr0 IH]; intros pre Hno H; simpl in *.
  - by exists pre.
  - destruct pre as [|y pre]; simpl in H.
    + injection H as -> _. destruct (Hno c). by left.
    + injection H as <- H. destruct (IH pre) as (pre' & -> & ->); [|done|].
      * intros c' Hc'. apply (Hno c'). by right.
      * by exists pre'.
Qed.

Lemma orderly_ret {A} (a : A) : orderly lib (ret a).
Proof.
  intros tr. exists []. simpl. split; [by rewrite app_nil_r|].
  split; [by intros ?%elem_of_nil|]. intros pre c post H. by destruct pre.
Qed.

Lemma orderly_raise {A} : orderly lib (@raise A).
Proof.
  intros tr. exists []. simpl. split; [by rewrite app_nil_r|].
  split; [by intros ?%elem_of_nil|]. intros pre c post H. by destruct pre.
Qed.

Lemma orderly_emit e :
  (∀ c, e ≠ Call c) → e ≠ LogException → orderly lib (emit e).
Proof.
  intros Hcall Hlog tr. exists [e]. simpl. split; [done|]. split.
  - intros [H|H%elem_of_nil]%elem_of_cons; [by destruct Hlog | done].
  - intros pre c post (_ & _ & ->)%split_one. by destruct (Hcall c).
Qed.

Lemma orderly_call c : orderly lib (call lib c).
Proof.
  intros tr. exists [Call c]. unfold call. simpl. split; [done|]. split.
  - by intros [?|?%elem_of_nil]%elem_of_cons.
  - intros pre c' post (-> & -> & [= <-])%split_one. rewrite app_nil_r.
    intros ->. done.
Qed.

Lemma orderly_config_get section key : orderly lib (config_get lib section key).
Proof.
  intros tr. exists [Call (ConfigGet section key)]. unfold config_get. simpl.
  split; [done|]. split.
  - by intros [?|?%elem_of_nil]%elem_of_cons.
  - intros pre c' post (-> & -> & [= <-])%split_one. rewrite app_nil_r.
    intros ->. done.
Qed.

Lemma orderly_print_state : orderly lib (print_state lib).
Proof.
  intros tr. unfold print_state.
  destruct (lib_raises lib (calls tr) GetState) eqn:E; simpl.
  - exists [Call GetState]. split; [done|]. split.
    + by intros [?|?%elem_of_nil]%elem_of_cons.
    + by intros pre c' post (-> & -> & [= <-])%split_one.
  - exists [Call GetState; Print (lib_state lib (calls tr))]. split; [done|]. split.
    + intros H. repeat (apply elem_of_cons in H as [H|H]; [discriminate H|]).
      by apply elem_of_nil in H.
    + intros pre c' post H. destruct pre as [|y pre]; simpl in H.
      * injection H as <- <-. rewrite app_nil_r. congruence.
      * injection H as _ H. apply split_one in H as (_ & _ & [=]).
Qed.

Lemma orderly_bind {A B} (m : M A) (k : A → M B) :
  orderly lib m → (∀ a, orderly lib (k a)) → orderly lib (App.bind m k).
Proof.
  intros Hm Hk tr. destruct (Hm tr) as (evs1 & Htr1 & Hlog1 & Hfail1).
  unfold App.bind. destruct (m tr) as [tr1 [a|]] eqn:Em; simpl in *.
  - destruct (Hk a tr1) as (evs2 & Htr2 & Hlog2 & Hfail2).
    exists (evs1 ++ evs2). split; [by rewrite Htr2, Htr1, <- app_assoc|]. split.
    + by intros [?|?]%elem_of_app.
    + intros pre c post Hsplit Hraises.
      apply app_eq_inv in Hsplit as [(l & -> & Hl) | (l & -> & ->)].
      * destruct l as [|x l]; simpl in Hl.
        -- rewrite app_nil_r in Htr1. apply (Hfail2 [] c post); [done|].
           by rewrite app_nil_r, Htr1.
        -- injection Hl as Hx Hpost. subst x post.
           by destruct (Hfail1 pre c l eq_refl Hraises) as [_ ?].
      * apply (Hfail2 l c post); [done|]. by rewrite Htr1, <- app_assoc.
  - exists evs1. split; [done|]. split; [done|].
    intros pre c post Hsplit Hraises. split; [|done].
    by destruct (Hfail1 pre c post Hsplit Hraises).
Qed.

Lemma orderly_when b (m : M unit) : orderly lib m → orderly lib (when b m).
Proof. destruct b; [done|]. intros _. apply orderly_ret. Qed.

Lemma orderly_maybe_start_editor args : orderly lib (maybe_start_editor lib args).
Proof.
  unfold maybe_start_editor. destruct (editor_given args);
    [apply orderly_call | apply orderly_ret].
Qed.

Lemma orderly_ask_and_clean replies : orderly lib (ask_and_clean lib replies).
Proof.
  induction replies as [|reply replies IH]; simpl.
  - apply orderly_bind; [apply orderly_config_get|]. intros ioc.
    apply orderly_bind; [by apply orderly_emit|]. intros _. apply orderly_raise.
  - apply orderly_bind; [apply orderly_config_get|]. intros ioc.
    apply orderly_bind; [by apply orderly_emit|]. intros _.
    destruct (says_yes reply); [apply orderly_call|].
    destruct (says_no reply); [apply orderly_ret | apply IH].
Qed.

Lemma orderly_main_routine args replies : orderly lib (main_routine lib args replies).
Proof.
  unfold main_routine.
  repeat case_bool_decide;
    repeat first
      [ apply orderly_bind; [|intros ?]
      | apply orderly_call | apply orderly_config_get | apply orderly_print_state
      | apply orderly_when | apply orderly_maybe_start_editor
      | apply orderly_ask_and_clean | apply orderly_ret | apply orderly_raise
      | (apply orderly_emit; [done | done])
      | match goal with |- orderly _ (if ?b then _ else _) => destruct b end ].
Qed.

End app_facts.

(** [main] returns 0 or -1, and -1 exactly when it has logged an exception,
    which is then the last thing it did. A call on the library that raises
    is the last call made: only the logging of the exception follows and the
    return code is -1; so with return code 0 no call has raised. *)
Theorem main_exit_code parser lib argv sys_argv replies tr code :
  AppMain.main parser lib argv sys_argv replies = (tr, Returned code) →
  (code = 0%Z ∨ code = (-1)%Z) ∧
  (code = (-1)%Z ↔ App.LogException ∈ tr) ∧
  (code = (-1)%Z → last tr = Some App.LogException) ∧
  (∀ pre c post,
     tr = pre ++ App.Call c :: post →
     App.lib_raises lib (App.calls pre) c = true →
     post = [App.LogException] ∧ code = (-1)%Z).
Proof.
  unfold AppMain.main, AppMain.parse_args.
  set (sargv := default argv sys_argv). clearbody sargv.
  assert (∀ pre c post,
            [App.PrintHelp; App.Print AppMain.no_arguments_message]
              ≠ pre ++ App.Call c :: post) as Hhelp.
  { intros [|? [|? [|? ?]]] c post; simpl; congruence. }
  assert (∀ pre c post,
            [App.Print AppMain.no_arguments_message] ≠ pre ++ App.Call c :: post) as Hnone.
  { intros [|? [|? ?]] c post; simpl; congruence. }
  destruct (length sargv =? 0).
  { intros [= <- <-]. split; [by left|]. split; [|split].
    - split; [done|]. not_in_list.
    - done.
    - intros pre c post H. by destruct (Hhelp pre c post). }
  destruct (parser sargv) as [args|]; [|done].
  destruct (App.subcommand args) as [sub|] eqn:Hsub.
  2:{ intros [= <- <-]. split; [by left|]. split; [|split].
      - split; [done|]. not_in_list.
      - done.
      - intros pre c post H. by destruct (Hnone pre c post). }
  simpl.
  set (tr0 := [App.SetLevel (if 0 <? App.verbose args then DEBUG else INFO);
               App.AppLog DEBUG "debug logging enabled"]).
  assert (App.LogException ∉ tr0) as Hlog0.
  { subst tr0. not_in_list. }
  assert (∀ c', App.Call c' ∉ tr0) as Hno.
  { intros c'. subst tr0. not_in_list. }
  clearbody tr0.
  destruct (orderly_main_routine lib args replies tr0) as (evs & Htr & Hlog & Hfail).
  assert (∀ pre c post, tr0 ++ evs = pre ++ App.Call c :: post →
            ∃ pre', pre = tr0 ++ pre' ∧ evs = pre' ++ App.Call c :: post) as Hsplit.
  { intros pre c post. by apply split_after_prefix. }
  destruct (AppMain.main_routine lib args replies tr0) as [tr1 [[]|]] eqn:Erun;
    cbn [fst snd] in *; subst tr1; intros [= <- <-].
  - split; [by left|]. split; [|split].
    + split; [done|]. by intros [?|?]%elem_of_app.
    + done.
    + intros pre c post H Hraises.
      destruct (Hsplit _ _ _ H) as (pre' & -> & ->).
      by destruct (Hfail pre' c post eq_refl Hraises) as [_ ?].
  - split; [by right|]. split; [|split].
    + split; [|done]. intros _. apply elem_of_app. right. by left.
    + intros _. by rewrite last_snoc.
    + intros pre c post H Hraises. split; [|done].
      destruct post as [|z post' _] using rev_ind.
      * apply app_inj_tail in H as [_ H]. discriminate H.
      * rewrite app_comm_cons, app_assoc in H.
        apply app_inj_tail in H as [H <-].
        destruct (Hsplit _ _ _ H) as (pre' & -> & ->).
        by destruct (Hfail pre' c post' eq_refl Hraises) as [-> _].
Qed.

Lemma main_exit_code_witness :
  ∃ tr,
    AppMain.main parser_sample lib_failing [] (Some ["new"]) [] = (tr, Returned (-1)%Z) ∧
    last tr = Some App.LogException ∧
    (∀ pre post, tr = pre ++ App.Call App.GenerateCode :: post → post = [App.LogException]).
Proof.
  destruct (AppMain.main parser_sample lib_failing [] (Some ["new"]) []) as [tr code] eqn:E.
  assert (code = Returned (-1)%Z) as -> by (vm_compute in E; by injection E as _ <-).
  destruct (main_exit_code _ _ _ _ _ _ _ E) as (_ & _ & Hlast & Hfail).
  exists tr. split; [reflexivity|]. split; [by apply Hlast|].
  intros pre post Htr. by destruct (Hfail pre _ post Htr eq_refl).
Defined.

Section clean_facts.
Import App AppMain.
Variable lib : Lib.

Lemma prompts_app tr1 tr2 : prompts (tr1 ++ tr2) = prompts tr1 + prompts tr2.
Proof. unfold prompts. by rewrite filter_app, length_app. Qed.

(** What the loop of the [clean] subcommand does, from any events on. *)
Lemma ask_and_clean_spec replies : ∀ tr,
  ∃ evs,
    (ask_and_clean lib replies tr).1 = tr ++ evs ∧
    (∀ c, c ∈ calls evs → c = ConfigGet "project" "ioc_file" ∨ c = Clean) ∧
    (Clean ∈ calls evs → first_decisive replies = Some true) ∧
    ((∀ h c, lib_raises lib h c = false) →
     (first_decisive replies = Some true → Clean ∈ calls evs) ∧
     ((ask_and_clean lib replies tr).2 = None ↔ first_decisive replies = None) ∧
     prompts evs = asked replies).
Proof.
  induction replies as [|reply replies IH]; intros tr; simpl;
    unfold App.bind, config_get, emit, raise, call, ret; simpl.
  - destruct (lib_raises lib (calls tr) (ConfigGet "project" "ioc_file")) eqn:E; simpl.
    + exists [Call (ConfigGet "project" "ioc_file")]. split; [done|]. split.
      { intros c [->|?%elem_of_nil]%elem_of_cons; [by left | done]. }
      split; [intros H; exfalso; revert H; not_in_list|].
      intros Hnever. by rewrite Hnever in E.
    + eexists [Call (ConfigGet "project" "ioc_file"); Prompt _].
      split; [by rewrite <- app_assoc|]. split.
      { intros c [->|?%elem_of_nil]%elem_of_cons; [by left | done]. }
      split; [intros H; exfalso; revert H; not_in_list|].
      intros _. split; [done|]. by split.
  - destruct (lib_raises lib (calls tr) (ConfigGet "project" "ioc_file")) eqn:E; simpl.
    + exists [Call (ConfigGet "project" "ioc_file")]. split; [done|]. split.
      { intros c [->|?%elem_of_nil]%elem_of_cons; [by left | done]. }
      split; [intros H; exfalso; revert H; not_in_list|].
      intros Hnever. by rewrite Hnever in E.
    + set (ioc := lib_config lib (calls tr) "project" "ioc_file").
      assert (prompts [Call (ConfigGet "project" "ioc_file"); Prompt ioc] = 1) as Hp.
      { done. }
      destruct (says_yes reply) eqn:Hyes; simpl.
      * eexists [Call (ConfigGet "project" "ioc_file"); Prompt ioc; Call Clean].
        split; [by rewrite <- !app_assoc|]. split.
        { intros c Hc. repeat (apply elem_of_cons in Hc as [->|Hc]; [by auto|]).
          by apply elem_of_nil in Hc. }
        split; [done|]. intros Hnever. split; [intros _; right; by left|].
        rewrite Hnever. split; [done|].
        change [Call (ConfigGet "project" "ioc_file"); Prompt ioc; Call Clean]
          with ([Call (ConfigGet "project" "ioc_file"); Prompt ioc] ++ [Call Clean]).
        by rewrite prompts_app, Hp.
      * destruct (says_no reply) eqn:Hno; simpl.
        -- eexists [Call (ConfigGet "project" "ioc_file"); Prompt ioc].
           split; [by rewrite <- !app_assoc|]. split.
           { intros c [->|?%elem_of_nil]%elem_of_cons; [by left | done]. }
           split; [intros H; exfalso; revert H; not_in_list|].
           intros _. by repeat split.
        -- destruct (IH ((tr ++ [Call (ConfigGet "project" "ioc_file")]) ++ [Prompt ioc]))
             as (evs & Htr & Hcalls & Hsafe & Hlive).
           exists ([Call (ConfigGet "project" "ioc_file"); Prompt ioc] ++ evs).
           split; [by rewrite Htr, <- !app_assoc|]. split.
           { intros c. rewrite calls_app. intros [Hc|Hc]%elem_of_app; [|by apply Hcalls].
             apply elem_of_cons in Hc as [->|?%elem_of_nil]; [by left | done]. }
           split.
           { rewrite calls_app. intros [Hc|Hc]%elem_of_app; [|by apply Hsafe].
             exfalso. revert Hc. not_in_list. }
           intros Hnever. destruct (Hlive Hnever) as (Hl1 & Hl2 & Hl3). split.
           { intros Hd. rewrite calls_app. apply elem_of_app. right. by apply Hl1. }
           split; [done|]. by rewrite prompts_app, Hp, Hl3.
Qed.

End clean_facts.

Section only_calls_facts.
Import App AppMain.
Variables (lib : Lib) (P : LibCall → Prop).

Lemma only_calls_ret {A} (a : A) : only_calls P (ret a).
Proof.
  intros tr. exists []. simpl. split; [by rewrite app_nil_r|]. by intros c ?%elem_of_nil.
Qed.

Lemma only_calls_raise {A} : only_calls P (@raise A).
Proof.
  intros tr. exists []. simpl. split; [by rewrite app_nil_r|]. by intros c ?%elem_of_nil.
Qed.

Lemma only_calls_emit e : (∀ c, e ≠ Call c) → only_calls P (emit e).
Proof.
  intros He tr. exists [e]. simpl. split; [done|].
  destruct e; simpl; try (by intros c ?%elem_of_nil). by destruct (He c).
Qed.

Lemma only_calls_call c : P c → only_calls P (call lib c).
Proof.
  intros Hc tr. exists [Call c]. simpl. split; [done|].
  by intros c' [->|?%elem_of_nil]%elem_of_cons.
Qed.

Lemma only_calls_config_get section key :
  P (ConfigGet section key) → only_calls P (config_get lib section key).
Proof.
  intros Hc tr. exists [Call (ConfigGet section key)]. simpl. split; [done|].
  by intros c' [->|?%elem_of_nil]%elem_of_cons.
Qed.

Lemma only_calls_print_state : P GetState → only_calls P (print_state lib).
Proof.
  intros Hc tr. unfold print_state.
  destruct (lib_raises lib (calls tr) GetState); simpl.
  - exists [Call GetState]. split; [done|].
    by intros c' [->|?%elem_of_nil]%elem_of_cons.
  - exists [Call GetState; Print (lib_state lib (calls tr))]. split; [done|].
    by intros c' [->|?%elem_of_nil]%elem_of_cons.
Qed.

Lemma only_calls_bind {A B} (m : M A) (k : A → M B) :
  only_calls P m → (∀ a, only_calls P (k a)) → only_calls P (App.bind m k).
Proof.
  intros Hm Hk tr. destruct (Hm tr) as (evs1 & Htr1 & Hc1).
  unfold App.bind. destruct (m tr) as [tr1 [a|]]; simpl in *.
  - destruct (Hk a tr1) as (evs2 & Htr2 & Hc2).
    exists (evs1 ++ evs2). split; [by rewrite Htr2, Htr1, <- app_assoc|].
    intros c. rewrite calls_app. intros [?|?]%elem_of_app; auto.
  - by exists evs1.
Qed.

Lemma only_calls_when b (m : M unit) : only_calls P m → only_calls P (when b m).
Proof. destruct b; [done|]. intros _. apply only_calls_ret. Qed.

Lemma only_calls_maybe_start_editor args :
  (∀ e, editor_given args = Some e → P (StartEditor e)) →
  only_calls P (maybe_start_editor lib args).
Proof.
  intros He. unfold maybe_start_editor. destruct (editor_given args) as [e|].
  - apply only_calls_call. by apply He.
  - apply only_calls_ret.
Qed.

Lemma only_calls_ask_and_clean replies :
  P (ConfigGet "project" "ioc_file") → P Clean →
  only_calls P (ask_and_clean lib replies).
Proof.
  intros H1 H2 tr. destruct (ask_and_clean_spec lib replies tr) as (evs & Htr & Hc & _).
  exists evs. split; [done|]. intros c Hin. by destruct (Hc c Hin) as [-> | ->].
Qed.

End only_calls_facts.

(** Goes through a piece of [main], leaving what has to hold of its calls. *)
Ltac walk_calls :=
  repeat first
    [ apply only_calls_bind; [|intros ?]
    | apply only_calls_ret | apply only_calls_raise
    | apply only_calls_when
    | (apply only_calls_emit; done)
    | apply only_calls_call | apply only_calls_config_get
    | apply only_calls_print_state
    | apply only_calls_maybe_start_editor
    | match goal with |- only_calls _ (if ?b then _ else _) => destruct b end ].

Section main_facts.
Import App AppMain.
Variables (parser : list string → option Namespace) (lib : Lib).

(** With a subcommand, [main] sets the logger up, runs the body of [try] and
    turns an exception into the return code -1. *)
Lemma main_runs argv sys_argv replies args sub :
  default argv sys_argv ≠ [] →
  parser (default argv sys_argv) = Some args →
  subcommand args = Some sub →
  main parser lib argv sys_argv replies =
  match main_routine lib args replies (logging_set_up args) with
  | (tr, Some _) => (tr, Returned 0%Z)
  | (tr, None) => (tr ++ [LogException], Returned (-1)%Z)
  end.
Proof.
  intros Hargv Hparse Hsub. unfold main, parse_args.
  destruct (default argv sys_argv) as [|a sargv] eqn:E; [done|].
  simpl. rewrite Hparse, Hsub. done.
Qed.

(** Without one, it makes no call on the library. *)
Lemma main_cases argv sys_argv replies :
  calls (main parser lib argv sys_argv replies).1 = [] ∨
  ∃ args sub,
    default argv sys_argv ≠ [] ∧
    parser (default argv sys_argv) = Some args ∧
    subcommand args = Some sub.
Proof.
  destruct (default argv sys_argv) as [|a sargv] eqn:E.
  { left. unfold main, parse_args. by rewrite E. }
  destruct (parser (a :: sargv)) as [args|] eqn:Hparse.
  2:{ left. unfold main, parse_args. rewrite E. simpl. by rewrite Hparse. }
  destruct (subcommand args) as [sub|] eqn:Hsub.
  2:{ left. unfold main, parse_args. rewrite E. simpl. by rewrite Hparse, Hsub. }
  right. by exists args, sub.
Qed.

Lemma main_calls argv sys_argv replies args sub :
  default argv sys_argv ≠ [] →
  parser (default argv sys_argv) = Some args →
  subcommand args = Some sub →
  calls (main parser lib argv sys_argv replies).1 =
  calls (main_routine lib args replies (logging_set_up args)).1.
Proof.
  intros Hargv Hparse Hsub. rewrite (main_runs _ _ _ _ _ Hargv Hparse Hsub).
  destruct (main_routine lib args replies (logging_set_up args)) as [tr [[]|]]; simpl.
  - done.
  - rewrite calls_app. simpl. by rewrite app_nil_r.
Qed.

Lemma routine_clean args replies :
  Clean ∈ calls (main_routine lib args replies (logging_set_up args)).1 →
  subcommand args = Some "clean" ∧
  (quiet args = true ∨ first_decisive replies = Some true).
Proof.
  assert (∀ m : M unit, only_calls (λ c, c ≠ Clean) m →
            Clean ∉ calls (m (logging_set_up args)).1) as Hnot.
  { intros m Hm Hin. destruct (Hm (logging_set_up args)) as (evs & Htr & Hc).
    rewrite Htr, calls_app in Hin. apply elem_of_app in Hin as [Hin|Hin].
    - revert Hin. unfold logging_set_up. not_in_list.
    - by apply (Hc Clean). }
  unfold main_routine.
  destruct (bool_decide (subcommand args = Some "init")).
  { intros Hin. exfalso. revert Hin. apply Hnot. walk_calls; done. }
  destruct (bool_decide (subcommand args = Some "new")).
  { intros Hin. exfalso. revert Hin. apply Hnot. walk_calls; done. }
  destruct (bool_decide (subcommand args = Some "generate")).
  { intros Hin. exfalso. revert Hin. apply Hnot. walk_calls; done. }
  destruct (bool_decide (subcommand args = Some "status")).
  { intros Hin. exfalso. revert Hin. apply Hnot. walk_calls; done. }
  case_bool_decide as Hclean; [|by intros ?%elem_of_nil].
  intros Hin. split; [done|]. destruct (quiet args); [by left | right].
  revert Hin. unfold App.bind, call at 1. cbn [fst snd].
  destruct (lib_raises lib _ _); [unfold logging_set_up; not_in_list|].
  destruct (ask_and_clean_spec lib replies
              (logging_set_up args ++ [Call (NewStm32pio (project_path args) None false)]))
    as (evs & -> & _ & Hsafe & _).
  rewrite calls_app. intros [Hin|Hin]%elem_of_app; [|by apply Hsafe].
  exfalso. revert Hin. unfold logging_set_up. not_in_list.
Qed.

End main_facts.

(** The [clean] subcommand never cleans on its own: [project.clean()] is
    called only with [--quiet] or after a reply that says yes (whatever its
    case) which no reply saying no precedes; replies that say neither are
    passed over. *)
Theorem clean_needs_consent parser lib argv sys_argv replies :
  App.Clean ∈ App.calls (AppMain.main parser lib argv sys_argv replies).1 →
  ∃ args,
    parser (default argv sys_argv) = Some args ∧
    App.subcommand args = Some "clean" ∧
    (App.quiet args = true ∨ first_decisive replies = Some true).
Proof.
  intros H.
  destruct (main_cases parser lib argv sys_argv replies)
    as [Hnone | (args & sub & Hargv & Hparse & Hsub)].
  { rewrite Hnone in H. by apply elem_of_nil in H. }
  rewrite (main_calls _ _ _ _ _ _ _ Hargv Hparse Hsub) in H.
  apply routine_clean in H as [Hclean Hconsent]. by exists args.
Qed.

Lemma clean_needs_consent_witness :
  App.Clean ∈ App.calls
    (AppMain.main parser_sample lib_quiet [] (Some ["clean"]) ["maybe"; "YES"; "n"]).1 ∧
  first_decisive ["maybe"; "YES"; "n"] = Some true ∧
  App.Clean ∉ App.calls
    (AppMain.main parser_sample lib_quiet [] (Some ["clean"]) ["maybe"; "No"; "y"]).1.
Proof.
  assert (App.Clean ∈ App.calls
            (AppMain.main parser_sample lib_quiet [] (Some ["clean"])
               ["maybe"; "YES"; "n"]).1) as Hin.
  { vm_compute. do 3 right. left. }
  split; [exact Hin|].
  destruct (clean_needs_consent _ _ _ _ _ Hin) as (args & Hparse & _ & [Hq | Hyes]).
  - vm_compute in Hparse. injection Hparse as <-. discriminate Hq.
  - split; [exact Hyes|]. intros Hin'.
    destruct (clean_needs_consent _ _ _ _ _ Hin') as (args' & Hparse' & _ & [Hq | Hyes']).
    + vm_compute in Hparse'. injection Hparse' as <-. discriminate Hq.
    + vm_compute in Hyes'. discriminate Hyes'.
Defined.

(** When nothing raises in the library, the [clean] subcommand without
    [--quiet] asks once more after every reply that says neither yes nor no:
    it cleans exactly when the first reply that says one of them says yes,
    returns 0 when there is such a reply and -1 when the replies are used up
    before ([input] raises [EOFError]), and has asked as often as replies
    were needed. *)
Theorem clean_asks_until_answered parser lib argv sys_argv replies args :
  default argv sys_argv ≠ [] →
  parser (default argv sys_argv) = Some args →
  App.subcommand args = Some "clean" →
  App.quiet args = false →
  (∀ h c, App.lib_raises lib h c = false) →
  (App.Clean ∈ App.calls (AppMain.main parser lib argv sys_argv replies).1 ↔
   first_decisive replies = Some true) ∧
  (AppMain.main parser lib argv sys_argv replies).2 =
    Returned (match first_decisive replies with Some _ => 0 | None => -1 end)%Z ∧
  prompts (AppMain.main parser lib argv sys_argv replies).1 = asked replies.
Proof.
  intros Hargv Hparse Hsub Hquiet Hnever.
  rewrite (main_runs _ _ _ _ _ _ _ Hargv Hparse Hsub).
  assert (AppMain.main_routine lib args replies (logging_set_up args) =
          AppMain.ask_and_clean lib replies
            (logging_set_up args
             ++ [App.Call (App.NewStm32pio (App.project_path args) None false)])) as ->.
  { unfold AppMain.main_routine. rewrite Hsub.
    rewrite !(bool_decide_false (Some "clean" = _)) by done.
    rewrite bool_decide_true by done. rewrite Hquiet.
    unfold App.bind, App.call. by rewrite Hnever. }
  destruct (ask_and_clean_spec lib replies
              (logging_set_up args
               ++ [App.Call (App.NewStm32pio (App.project_path args) None false)]))
    as (evs & Htr & _ & Hsafe & Hlive).
  destruct (Hlive Hnever) as (Hl1 & Hl2 & Hl3).
  assert (prompts (logging_set_up args
                   ++ [App.Call (App.NewStm32pio (App.project_path args) None false)]) = 0)
    as Hp0 by done.
  assert (App.Clean ∉ App.calls
            (logging_set_up args
             ++ [App.Call (App.NewStm32pio (App.project_path args) None false)])) as Hc0.
  { unfold logging_set_up. not_in_list. }
  destruct (AppMain.ask_and_clean lib replies _) as [tr [[]|]] eqn:E;
    cbn [fst snd] in *; subst tr.
  - assert (first_decisive replies ≠ None) as Hsome by (intros ?%Hl2; done).
    destruct (first_decisive replies) as [b|] eqn:Hd; [|done]. split; [|split].
    + rewrite calls_app, elem_of_app. split; [intros [?|?]; [done | by apply Hsafe]|].
      intros Hb. right. by apply Hl1.
    + done.
    + by rewrite prompts_app, Hp0, Hl3.
  - rewrite (proj1 Hl2 eq_refl) in *. split; [|split].
    + do 2 rewrite calls_app. rewrite !elem_of_app. split; [|done].
      intros [[?|?]|Hin]; [done | by apply Hsafe |].
      revert Hin. not_in_list.
    + done.
    + do 2 rewrite prompts_app. rewrite Hp0, Hl3.
      change (prompts [App.LogException]) with 0. lia.
Qed.

Lemma clean_asks_until_answered_witness :
  (default [] (Some ["clean"]) ≠ [] ∧
   parser_sample (default [] (Some ["clean"])) = Some (args_sample "clean") ∧
   (∀ h c, App.lib_raises lib_quiet h c = false)) ∧
  (AppMain.main parser_sample lib_quiet [] (Some ["clean"]) ["what?"; "maybe"]).2
    = Returned (-1)%Z ∧
  prompts (AppMain.main parser_sample lib_quiet [] (Some ["clean"]) ["what?"; "maybe"]).1 = 3 ∧
  (AppMain.main parser_sample lib_quiet [] (Some ["clean"]) ["what?"; "True"; "n"]).2
    = Returned 0%Z ∧
  prompts (AppMain.main parser_sample lib_quiet [] (Some ["clean"]) ["what?"; "True"; "n"]).1 = 2.
Proof.
  assert (default [] (Some ["clean"]) ≠ []) as H1 by done.
  assert (parser_sample (default [] (Some ["clean"])) = Some (args_sample "clean")) as H2
    by reflexivity.
  assert (∀ h c, App.lib_raises lib_quiet h c = false) as H3 by reflexivity.
  split; [done|].
  destruct (clean_asks_until_answered parser_sample lib_quiet [] (Some ["clean"])
              ["what?"; "maybe"] _ H1 H2 eq_refl eq_refl H3) as (_ & Hcode & Hasked).
  destruct (clean_asks_until_answered parser_sample lib_quiet [] (Some ["clean"])
              ["what?"; "True"; "n"] _ H1 H2 eq_refl eq_refl H3) as (_ & Hcode' & Hasked').
  split; [exact Hcode|]. split; [exact Hasked|]. split; [exact Hcode' | exact Hasked'].
Defined.

(** The [new] subcommand stops when the board that the project's config
    gives is empty: the project has been constructed and its config read,
    nothing is generated, initialized, patched, built or opened in an
    editor, and the return code is -1. [main] takes the board from the
    config the library returns, it does not look at [args.board] again. *)
Theorem new_needs_board parser lib argv sys_argv replies args :
  default argv sys_argv ≠ [] →
  parser (default argv sys_argv) = Some args →
  App.subcommand args = Some "new" →
  (∀ h, App.lib_config lib h "project" "board" = "") →
  (AppMain.main parser lib argv sys_argv replies).2 = Returned (-1)%Z ∧
  ∀ c, c ∈ App.calls (AppMain.main parser lib argv sys_argv replies).1 →
       c = App.NewStm32pio (App.project_path args) (Some (App.board args)) true ∨
       c = App.ConfigGet "project" "board".
Proof.
  intros Hargv Hparse Hsub Hboard.
  rewrite (main_runs _ _ _ _ _ _ _ Hargv Hparse Hsub).
  unfold AppMain.main_routine. rewrite Hsub.
  rewrite bool_decide_false by done. rewrite bool_decide_true by done.
  unfold App.bind, App.call, App.config_get, App.raise.
  destruct (App.lib_raises lib _ (App.NewStm32pio _ _ _)); cbn [fst snd].
  { split; [done|]. intros c. unfold logging_set_up. simpl.
    intros [->|?%elem_of_nil]%elem_of_cons; [by left | done]. }
  destruct (App.lib_raises lib _ (App.ConfigGet _ _)); cbn [fst snd].
  2: rewrite Hboard; simpl.
  all: split; [done|]; intros c; unfold logging_set_up; simpl;
    intros [->|[->|?%elem_of_nil]%elem_of_cons]%elem_of_cons; [by left | by right | done].
Qed.

Lemma new_needs_board_witness :
  App.board (args_sample "new") = "nucleo_f031k6" ∧
  (AppMain.main parser_sample lib_quiet [] (Some ["new"]) []).2 = Returned (-1)%Z ∧
  App.GenerateCode ∉ App.calls (AppMain.main parser_sample lib_quiet [] (Some ["new"]) []).1.
Proof.
  split; [reflexivity|].
  destruct (new_needs_board parser_sample lib_quiet [] (Some ["new"]) [] (args_sample "new"))
    as [Hcode Hcalls]; [done | reflexivity | reflexivity | reflexivity |].
  split; [exact Hcode|]. intros Hin. by destruct (Hcalls _ Hin).
Defined.
